(** * Variant-image resolution and price normalisation of node-crawltool

    A shallow embedding of the JavaScript that resolves one image per
    product variant:

    - [processVariantImages] (the stand-alone post-processing script), which
      mutates the parsed product JSON in place;
    - the product-JSON branch of [crawlCollection] in [sitemap_crawler.js]
      (repeated verbatim in the step-by-step crawler), which builds fresh
      variant objects and normalises every URL it selects;
    - the helpers [makeAbsoluteUrl], [getHighResImage] and [normalizePrice].

    JavaScript strings are modelled by [string] (all patterns the code
    matches are ASCII), JavaScript numbers by Rocq's primitive binary64
    floats, the [Map] of the code by a [gmap] with string keys, and a thrown
    exception by the [Throw] constructor of [result]. Two functions of the
    engine are parameters of the development: the URL constructor
    ([url_href]) and [Number.prototype.toString] ([numToString]), which
    turns a numeric variant id into a key of the map. *)

From Stdlib Require Import ZArith Floats String Ascii.
From stdpp Require Import base option list gmap strings pretty.

Open Scope string_scope.

(** ** Exceptions *)

Inductive error : Type :=
| TypeError (msg : string).

Inductive result (A : Type) : Type :=
| Ok (a : A)
| Throw (e : error).
Arguments Ok {A} a.
Arguments Throw {A} e.

Definition bind {A B : Type} (r : result A) (k : A -> result B) : result B :=
  match r with
  | Ok a => k a
  | Throw e => Throw e
  end.

Notation "'let*' x ':=' r 'in' k" := (bind r (fun x => k))
  (at level 10, x name, r at level 100, k at level 200).

(** [Array.prototype.map] with a callback that may throw: the elements are
    visited in order and the first exception aborts the call. *)
Fixpoint mapR {A B : Type} (f : A -> result B) (l : list A) : result (list B) :=
  match l with
  | [] => Ok []
  | a :: l' => let* b := f a in let* bs := mapR f l' in Ok (b :: bs)
  end.

(** ** Strings *)

(** [s.startsWith(p)] *)
Fixpoint startsWith (s p : string) : bool :=
  match p with
  | EmptyString => true
  | String c p' =>
      match s with
      | EmptyString => false
      | String d s' => Ascii.eqb c d && startsWith s' p'
      end
  end.

(** [s.includes(p)] *)
Fixpoint includes (s p : string) : bool :=
  startsWith s p ||
  match s with
  | EmptyString => false
  | String _ s' => includes s' p
  end.

(** The remainder of [s] after the prefix [p], when [s] starts with [p]. *)
Fixpoint strip_prefix (p s : string) : option string :=
  match p with
  | EmptyString => Some s
  | String c p' =>
      match s with
      | EmptyString => None
      | String d s' => if Ascii.eqb c d then strip_prefix p' s' else None
      end
  end.

(** ToBoolean on a string: only the empty string is falsy. *)
Definition str_truthy (s : string) : bool :=
  match s with
  | EmptyString => false
  | String _ _ => true
  end.

(** ToBoolean on a possibly missing string ([undefined] and [null] are
    falsy). *)
Definition opt_truthy (o : option string) : bool :=
  match o with
  | Some s => str_truthy s
  | None => false
  end.

(** ** The size-suffix rewrite *)

(** The alternation of the regular expression
    [/_(pico|icon|thumb|small|compact|medium|large|grande|original)_/],
    in the order the regular expression tries it. *)
Definition size_tokens : list string :=
  ["pico"; "icon"; "thumb"; "small"; "compact"; "medium"; "large"; "grande";
   "original"].

Definition high_res_token : string := "_2048x2048_".

(** A match of the regular expression anchored at the start of [s]: the
    first alternative that fits, with the text after the match. *)
Fixpoint match_tokens (toks : list string) (s : string) : option string :=
  match toks with
  | [] => None
  | t :: toks' =>
      match strip_prefix ("_" +:+ t +:+ "_") s with
      | Some rest => Some rest
      | None => match_tokens toks' s
      end
  end.

Definition match_size_token (s : string) : option string :=
  match_tokens size_tokens s.

(** [s.replace(/_(pico|...|original)_/, '_2048x2048_')]: the regular
    expression has no [g] flag, so only the leftmost match is replaced. *)
Fixpoint replace_size_token (s : string) : string :=
  match s with
  | EmptyString => EmptyString
  | String c s' =>
      match match_size_token s with
      | Some rest => high_res_token +:+ rest
      | None => String c (replace_size_token s')
      end
  end.

(** Does the regular expression match anywhere in [s]? *)
Fixpoint has_size_token (s : string) : bool :=
  match s with
  | EmptyString => false
  | String _ s' =>
      match match_size_token s with
      | Some _ => true
      | None => has_size_token s'
      end
  end.

Definition cdn_host : string := "cdn.shopify.com".

(** The inline idiom
    [if (u.includes('cdn.shopify.com')) u = u.replace(/.../, '_2048x2048_')]. *)
Definition highRes (u : string) : string :=
  if includes u cdn_host then replace_size_token u else u.

(** [getHighResImage(imageUrl)]; [None] stands for [null] and [undefined]. *)
Definition getHighResImage (imageUrl : option string) : option string :=
  match imageUrl with
  | None => None
  | Some u => if negb (str_truthy u) then None else Some (highRes u)
  end.

(** ** Absolute URLs *)

Definition is_alpha (c : ascii) : bool :=
  let n := N_of_ascii c in
  ((65 <=? n)%N && (n <=? 90)%N) || ((97 <=? n)%N && (n <=? 122)%N).

Definition is_digit (c : ascii) : bool :=
  let n := N_of_ascii c in (48 <=? n)%N && (n <=? 57)%N.

(** Characters allowed in a URL scheme after its first letter. *)
Definition is_scheme_char (c : ascii) : bool :=
  is_alpha c || is_digit c || Ascii.eqb c "+" || Ascii.eqb c "-"
  || Ascii.eqb c ".".

Fixpoint scheme_tail (s : string) : bool :=
  match s with
  | EmptyString => false
  | String c s' =>
      if Ascii.eqb c ":" then true else is_scheme_char c && scheme_tail s'
  end.

(** An absolute URL starts with a scheme: a letter, then letters, digits,
    [+], [-] or [.], then a colon. *)
Definition is_absolute (s : string) : bool :=
  match s with
  | EmptyString => false
  | String c s' => is_alpha c && scheme_tail s'
  end.

(** ** Numbers and prices *)

(** ToBoolean on a number: [0], [-0] and [NaN] are falsy. *)
Definition num_truthy (x : float) : bool :=
  negb (PrimFloat.is_zero x || PrimFloat.is_nan x).

(** The values a price field of the product JSON takes in this model: a
    missing field, [null], or a number. *)
Inductive value : Type :=
| VUndefined
| VNull
| VNum (x : float).

Definition ToBoolean (v : value) : bool :=
  match v with
  | VNum x => num_truthy x
  | _ => false
  end.

Definition ToNumber (v : value) : float :=
  match v with
  | VUndefined => nan
  | VNull => 0%float
  | VNum x => x
  end.

(** [a || b] *)
Definition js_or (a b : value) : value :=
  if ToBoolean a then a else b.

(** [normalizePrice(price)] *)
Definition normalizePrice (price : value) : value :=
  if negb (ToBoolean price) then VNull
  else if (10000 <? ToNumber price)%float
       then VNum (ToNumber price / 100)%float
       else price.

(** The inline heuristic of [crawlCollection]:
    [let p = variant.price; if (p > 10000) { p = p / 100; }] *)
Definition centsHeuristic (p : value) : value :=
  if (10000 <? ToNumber p)%float then VNum (ToNumber p / 100)%float else p.

(** ** Data model *)

(** A variant identifier as [JSON.parse] yields it: a number (a binary64
    float, as every JavaScript number) or a string. *)
Inductive ident : Type :=
| IdNum (x : float)
| IdStr (s : string).

(** An entry of [productJson.images] is a URL string or an object with an
    optional [src] and an optional [variant_ids] array ([None] when the field
    is missing or is not an array). *)
Record image_object : Type := {
  img_src : option string;
  img_variant_ids : option (list ident)
}.

Inductive image : Type :=
| ImgStr (s : string)
| ImgObj (o : image_object).

(** What [images[0]] evaluates to when [images] is not an array:
    [undefined], [null], or a value whose [src] can be read. *)
Inductive element : Type :=
| Undefined
| Null
| Entry (img : image).

(** A truthy [images] value that is not an array, by what the code reads
    of it: whether [images.length > 0] holds, and [images[0]]. *)
Record not_array : Type := {
  na_length_positive : bool;
  na_first : element
}.

(** The [images] field of the product JSON: missing or falsy, an array,
    or another truthy value (an object or a string, say). *)
Inductive images_field : Type :=
| ImagesAbsent
| ImagesArray (imgs : list image)
| ImagesOther (o : not_array).

Record featured : Type := {
  fi_src : option string
}.

(** A variant of the product JSON. [variant_id] is [None] when the [id]
    field is missing; [variant_image] is the [image] property, [None] while
    it is unset or [undefined]. *)
Record variant : Type := {
  variant_id : option ident;
  variant_title : option string;
  variant_price : value;
  variant_compare_at_price : value;
  variant_sku : option string;
  variant_available : option bool;
  variant_inventory_quantity : value;
  variant_option1 : option string;
  variant_option2 : option string;
  variant_option3 : option string;
  variant_options : list string;
  variant_featured_image : option featured;
  variant_image : option string
}.

(** [product_variants] is [None] when the field is missing or is not an
    array: every use of it is guarded by [Array.isArray]. *)
Record product : Type := {
  product_title : option string;
  product_handle : option string;
  product_images : images_field;
  product_variants : option (list variant)
}.

(** The variant object [crawlCollection] builds. *)
Record resolved : Type := {
  r_id : option ident;
  r_title : option string;
  r_price : value;
  r_compareAtPrice : value;
  r_sku : string;
  r_available : bool;
  r_option1 : option string;
  r_option2 : option string;
  r_option3 : option string;
  r_options : list string;
  r_image : option string
}.

(** [variant.featured_image && variant.featured_image.src], when truthy. *)
Definition featuredSrc (v : variant) : option string :=
  match variant_featured_image v with
  | Some fi => if opt_truthy (fi_src fi) then fi_src fi else None
  | None => None
  end.

(** [x || null] on an optional string. *)
Definition or_null (o : option string) : option string :=
  if opt_truthy o then o else None.

(** [[a, b, c].filter(Boolean)] *)
Definition filter_truthy (l : list (option string)) : list string :=
  omap or_null l.

(** ** Stand-ins for the scenarios *)

(** The integer a float holds (its integer part). *)
Definition integer_of (x : float) : Z :=
  match Prim2SF x with
  | S754_finite sign m e =>
      let n :=
        (if 0 <=? e then Z.pos m * 2 ^ e else Z.pos m / 2 ^ (- e))%Z in
      if sign then (- n)%Z else n
  | _ => 0%Z
  end.

(** [Number.prototype.toString] on an integer below [2^53] in absolute
    value: its decimal numeral. The numeric ids of the scenarios are such
    integers; on other numbers the engine prints a rounded or an exponent
    form, which this function does not. *)
Definition integer_toString (x : float) : string := pretty (integer_of x).

Fixpoint scheme_prefix (s : string) : string :=
  match s with
  | EmptyString => EmptyString
  | String c s' =>
      if Ascii.eqb c ":" then ":" else String c (scheme_prefix s')
  end.

(** [new URL(u, base).href] for a [base] that is an origin
    ([scheme://host]) and a reference [u] that needs no percent-encoding
    and no dot-segment removal: an absolute [u] is kept, [//host/path]
    takes the scheme of the base, [/path] and [path] are appended to the
    origin. *)
Definition origin_href (u base : string) : result string :=
  if is_absolute u then Ok u
  else if startsWith u "//" then Ok (scheme_prefix base +:+ u)
  else if startsWith u "/" then Ok (base +:+ u)
  else Ok (base +:+ "/" +:+ u).

(** ** Identifiers as map keys *)

Section Engine.

(** [Number.prototype.toString] of the engine, on the numbers [JSON.parse]
    yields. *)
Variable numToString : float -> string.

(** [id.toString()] *)
Definition toString (i : ident) : string :=
  match i with
  | IdNum x => numToString x
  | IdStr s => s
  end.

(** [ids.forEach(variantId => variantImageMap.set(variantId.toString(), u))]:
    later ids overwrite earlier ones. *)
Definition setAll {V : Type} (u : V) (ids : list ident) (m : gmap string V)
  : gmap string V :=
  foldl (fun acc i => <[toString i := u]> acc) m ids.

(** ** The product-JSON branch of [crawlCollection] *)

Section Crawl.

(** [new URL(u, base).href] of the browser; it throws a [TypeError] on a
    reference it cannot parse. *)
Variable url_href : string -> string -> result string.

(** [window.location.origin] of the product page. *)
Variable origin : string.

(** [if (!u.startsWith('http')) u = new URL(u, window.location.origin).href] *)
Definition absoluteUrl (u : string) : result string :=
  if negb (startsWith u "http") then url_href u origin else Ok u.

(** The normalisation every selected URL goes through: made absolute,
    then rewritten to high resolution. *)
Definition fullImageUrl (u : string) : result string :=
  let* a := absoluteUrl u in Ok (highRes a).

(** [makeAbsoluteUrl(url, baseUrl)] *)
Definition makeAbsoluteUrl (url : option string) (baseUrl : string)
  : result (option string) :=
  match url with
  | None => Ok None
  | Some u =>
      if negb (str_truthy u) then Ok None
      else if startsWith u "/"
           then let* a := url_href u baseUrl in Ok (Some a)
           else Ok (Some u)
  end.

(** The callback of [productJson.images.map]: the URL of one entry, or
    [null]. *)
Definition imageUrlOf (img : image) : result (option string) :=
  match img with
  | ImgStr s => let* u := fullImageUrl s in Ok (Some u)
  | ImgObj o =>
      match img_src o with
      | Some s =>
          if str_truthy s then let* u := fullImageUrl s in Ok (Some u)
          else Ok None
      | None => Ok None
      end
  end.

(** The list [images]:
    [productJson.images.map(...).filter(Boolean)], or [[]]. *)
Definition crawlImages (p : product) : result (list string) :=
  match product_images p with
  | ImagesArray imgs =>
      let* urls := mapR imageUrlOf imgs in Ok (filter_truthy urls)
  | _ => Ok []
  end.

(** The callback of [productJson.images.forEach] that fills
    [variantImageMap]. An entry with a [variant_ids] array and no [src]
    throws at [fullImageUrl.startsWith]. *)
Definition mapImage (m : gmap string string) (img : image)
  : result (gmap string string) :=
  match img with
  | ImgStr _ => Ok m
  | ImgObj o =>
      match img_variant_ids o with
      | None => Ok m
      | Some ids =>
          match img_src o with
          | None =>
              Throw (TypeError
                "Cannot read properties of undefined (reading 'startsWith')")
          | Some s => let* u := fullImageUrl s in Ok (setAll u ids m)
          end
      end
  end.

Fixpoint mapImages (m : gmap string string) (imgs : list image)
  : result (gmap string string) :=
  match imgs with
  | [] => Ok m
  | img :: rest => let* m' := mapImage m img in mapImages m' rest
  end.

Definition buildVariantImageMap (p : product) : result (gmap string string) :=
  match product_images p with
  | ImagesArray imgs => mapImages ∅ imgs
  | _ => Ok ∅
  end.

(** The cascade that chooses [variantImage]. *)
Definition variantImageOf (m : gmap string string) (images : list string)
    (v : variant) : result (option string) :=
  match featuredSrc v with
  | Some s => let* u := fullImageUrl s in Ok (Some u)
  | None =>
      match variant_id v with
      | None =>
          Throw (TypeError
            "Cannot read properties of undefined (reading 'toString')")
      | Some i =>
          match m !! toString i with
          | Some u => Ok (Some u)
          | None => Ok (head images)
          end
      end
  end.

(** The callback of [productJson.variants.map]; [price] is the product
    price computed before. *)
Definition resolveVariant (m : gmap string string) (images : list string)
    (price : value) (v : variant) : result resolved :=
  let variantPrice := centsHeuristic (variant_price v) in
  let variantComparePrice := centsHeuristic (variant_compare_at_price v) in
  let* variantImage := variantImageOf m images v in
  Ok {| r_id := variant_id v;
        r_title := variant_title v;
        r_price := js_or variantPrice price;
        r_compareAtPrice := js_or variantComparePrice VNull;
        r_sku := default "" (or_null (variant_sku v));
        r_available :=
          match variant_available v with
          | Some b => b
          | None => (0 <? ToNumber (variant_inventory_quantity v))%float
          end;
        r_option1 := or_null (variant_option1 v);
        r_option2 := or_null (variant_option2 v);
        r_option3 := or_null (variant_option3 v);
        r_options :=
          filter_truthy
            [variant_option1 v; variant_option2 v; variant_option3 v];
        r_image := variantImage |}.

(** [images] is computed first, then the map, then the variants. *)
Definition crawlVariants (price : value) (p : product)
  : result (list resolved) :=
  let* images := crawlImages p in
  match product_variants p with
  | Some vs =>
      let* m := buildVariantImageMap p in
      mapR (resolveVariant m images price) vs
  | None => Ok []
  end.

End Crawl.

(** ** [processVariantImages] *)

(** The first pass: [variantImageMap.set(variantId.toString(), img.src)]
    for every image with a [variant_ids] array; the value is [undefined]
    when the image has no [src]. *)
Definition mapImageSrc (m : gmap string (option string)) (img : image)
  : gmap string (option string) :=
  match img with
  | ImgStr _ => m
  | ImgObj o =>
      match img_variant_ids o with
      | Some ids => setAll (img_src o) ids m
      | None => m
      end
  end.

Definition firstPass (p : product) : gmap string (option string) :=
  match product_images p with
  | ImagesArray imgs => foldl mapImageSrc ∅ imgs
  | _ => ∅
  end.

(** [variant.image = x] *)
Definition set_image (v : variant) (x : option string) : variant :=
  {| variant_id := variant_id v;
     variant_title := variant_title v;
     variant_price := variant_price v;
     variant_compare_at_price := variant_compare_at_price v;
     variant_sku := variant_sku v;
     variant_available := variant_available v;
     variant_inventory_quantity := variant_inventory_quantity v;
     variant_option1 := variant_option1 v;
     variant_option2 := variant_option2 v;
     variant_option3 := variant_option3 v;
     variant_options := variant_options v;
     variant_featured_image := variant_featured_image v;
     variant_image := x |}.

(** [img.src] of an entry of [images]; a string has no [src]. *)
Definition srcOf (img : image) : option string :=
  match img with
  | ImgStr _ => None
  | ImgObj o => img_src o
  end.

(** The fallback [else if (images && images.length > 0)
    variant.image = images[0].src]. The test does not ask for an array: on
    another truthy value with a positive [length], [images[0]] is read all
    the same, and reading [src] of [undefined] or [null] throws. *)
Definition firstImage (images : images_field) (v : variant) : result variant :=
  match images with
  | ImagesAbsent => Ok v
  | ImagesArray [] => Ok v
  | ImagesArray (img0 :: _) => Ok (set_image v (srcOf img0))
  | ImagesOther o =>
      if na_length_positive o then
        match na_first o with
        | Undefined =>
            Throw (TypeError
              "Cannot read properties of undefined (reading 'src')")
        | Null =>
            Throw (TypeError "Cannot read properties of null (reading 'src')")
        | Entry img0 => Ok (set_image v (srcOf img0))
        end
      else Ok v
  end.

(** The callback of [productJson.variants.forEach]: the variant after the
    call, or the exception it throws. When no rule applies the variant is
    left as it is. *)
Definition assignImage (m : gmap string (option string))
    (images : images_field) (v : variant) : result variant :=
  match featuredSrc v with
  | Some s => Ok (set_image v (Some s))
  | None =>
      match variant_id v with
      | None =>
          Throw (TypeError
            "Cannot read properties of undefined (reading 'toString')")
      | Some i =>
          match m !! toString i with
          | Some o => Ok (set_image v o)
          | None => firstImage images v
          end
      end
  end.

(** [forEach] over objects mutated in place: the variants as they are when
    the loop ends, and the exception that ended it, if any. The variants
    before the throwing one keep their new image. *)
Fixpoint forEachVariant (f : variant -> result variant) (vs : list variant)
  : list variant * option error :=
  match vs with
  | [] => ([], None)
  | v :: vs' =>
      match f v with
      | Ok v' => let '(done, e) := forEachVariant f vs' in (v' :: done, e)
      | Throw e => (v :: vs', Some e)
      end
  end.

(** What a call leaves behind: the object it returns, or the exception it
    throws together with the state of the argument at that moment. The
    argument is the tree [JSON.parse] built, so no two of its objects are
    shared and a record per object describes it. *)
Inductive outcome : Type :=
| Returned (p : product)
| Raised (e : error) (p : product).

Definition set_variants (p : product) (vs : list variant) : product :=
  {| product_title := product_title p;
     product_handle := product_handle p;
     product_images := product_images p;
     product_variants := Some vs |}.

Definition processVariantImages (productJson : product) : outcome :=
  let variantImageMap := firstPass productJson in
  match product_variants productJson with
  | Some vs =>
      match forEachVariant
              (assignImage variantImageMap (product_images productJson)) vs with
      | (vs', None) => Returned (set_variants productJson vs')
      | (vs', Some e) => Raised e (set_variants productJson vs')
      end
  | None => Returned productJson
  end.

End Engine.

Definition state_of (o : outcome) : product :=
  match o with
  | Returned p => p
  | Raised _ p => p
  end.

(** ** Vocabulary of the statements *)

Definition variants_of (p : product) : list variant :=
  default [] (product_variants p).

Definition images_of (p : product) : list image :=
  match product_images p with
  | ImagesArray imgs => imgs
  | _ => []
  end.

(** The URL an entry of [images] is read from: the string itself, or the
    [src] of the object. *)
Definition sourceOf (img : image) : option string :=
  match img with
  | ImgStr s => Some s
  | ImgObj o => img_src o
  end.

(** The image [img] lists a variant id whose string is [key]. *)
Definition tagged (numToString : float -> string) (key : string)
    (img : image) : bool :=
  match img with
  | ImgStr _ => false
  | ImgObj o =>
      match img_variant_ids o with
      | Some ids => bool_decide (key ∈ toString numToString <$> ids)
      | None => false
      end
  end.

(** [img] is the last image of [imgs] that lists [key]. *)
Definition last_tagged (numToString : float -> string) (key : string)
    (imgs : list image) (img : image) : Prop :=
  exists pre post,
    imgs = (pre ++ img :: post)%list /\
    tagged numToString key img = true /\
    Forall (fun i => tagged numToString key i = false) post.

(** No image of [imgs] lists [key]. *)
Definition untagged (numToString : float -> string) (key : string)
    (imgs : list image) : Prop :=
  Forall (fun i => tagged numToString key i = false) imgs.

(** The variant carries a featured image whose [src] is the non-empty
    string [s]. *)
Definition featured_is (v : variant) (s : string) : Prop :=
  exists fi,
    variant_featured_image v = Some fi /\ fi_src fi = Some s /\ s <> "".

(** The variant carries no featured image source. *)
Definition unfeatured (v : variant) : Prop :=
  forall s, ~ featured_is v s.

(** Reading [images[0].src] in the fallback of [processVariantImages]
    throws: [images] is not an array, its [length] is positive and
    [images[0]] is [undefined] or [null]. *)
Definition first_unreadable (images : images_field) : bool :=
  match images with
  | ImagesOther o =>
      na_length_positive o &&
      match na_first o with
      | Entry _ => false
      | _ => true
      end
  | _ => false
  end.

(** [s] is a URL of the product JSON the resolver may select: the source
    of an image or the featured image source of a variant. *)
Definition image_source (p : product) (s : string) : Prop :=
  (exists img, img ∈ images_of p /\ sourceOf img = Some s) \/
  (exists v, v ∈ variants_of p /\ featured_is v s).

(** The inputs on which no step of [crawlVariants] throws: every source
    starts with [http] or is accepted by the URL constructor, an image
    that lists variant ids has a [src], and a variant without a featured
    image has an [id]. *)
Definition well_formed (url_href : string -> string -> result string)
    (origin : string) (p : product) : Prop :=
  (forall s, image_source p s ->
     startsWith s "http" = true \/ exists a, url_href s origin = Ok a) /\
  (forall o, ImgObj o ∈ images_of p ->
     is_Some (img_variant_ids o) -> is_Some (img_src o)) /\
  (forall v, v ∈ variants_of p -> unfeatured v -> is_Some (variant_id v)).

(** The variants [processVariantImages] gets through: a variant with a
    featured image source, or with an [id] while [images[0]] can be
    read. *)
Definition passes (images : images_field) (v : variant) : Prop :=
  (exists s, featured_is v s) \/
  (is_Some (variant_id v) /\ first_unreadable images = false).

(** [u] is the normal form of the source [s]: [s] itself when it starts
    with [http] and its href against the origin otherwise, then, if that
    contains the CDN host, with its leftmost size-suffix token replaced by
    [_2048x2048_]. *)
Definition normal_form (url_href : string -> string -> result string)
    (origin s u : string) : Prop :=
  exists a,
    (if startsWith s "http" then a = s else url_href s origin = Ok a) /\
    u = (if includes a "cdn.shopify.com" then replace_size_token a else a).

(** The source of an entry of [productJson.images] that makes it into the
    list [images] of [crawlCollection]: a string entry, or the non-empty
    [src] of an object. *)
Definition listed_source (img : image) : option string :=
  match img with
  | ImgStr s => Some s
  | ImgObj o =>
      match img_src o with
      | Some (String c s) => Some (String c s)
      | _ => None
      end
  end.

(** The image of the object [r] that [crawlCollection] builds for the
    variant [v], rule by rule: (a) the normal form of the featured image
    source; else (b) the normal form of the source of the last image that
    lists the stringified id; else (c) the first non-empty normal form of
    a listed source, (d) [null] when there is none. *)
Definition crawl_rules (numToString : float -> string)
    (url_href : string -> string -> result string) (origin : string)
    (imgs : list image) (v : variant) (r : resolved) : Prop :=
  (forall s, featured_is v s ->
     exists u, normal_form url_href origin s u /\ r_image r = Some u) /\
  (unfeatured v ->
     exists k, variant_id v = Some k /\
       (forall img,
          last_tagged numToString (toString numToString k) imgs img ->
          exists s u,
            sourceOf img = Some s /\ normal_form url_href origin s u /\
            r_image r = Some u) /\
       (untagged numToString (toString numToString k) imgs ->
          exists urls,
            Forall2 (normal_form url_href origin)
              (omap listed_source imgs) urls /\
            r_image r = head (filter (fun u => u <> "") urls))).

(** The [image] of the variant [v'] that [processVariantImages] leaves in
    place of [v], rule by rule: (a) the featured image source; else (b)
    the [src] of the last image that lists the stringified id; else (c)
    the [src] of [images[0]]; (d) when [images] is empty or missing
    nothing is assigned and the variant keeps the [image] it had. A value
    of [images] that is not an array is never scanned for ids, but
    [images[0]] is read from it when its [length] is positive. *)
Definition process_rules (numToString : float -> string)
    (images : images_field) (v v' : variant) : Prop :=
  (forall s, featured_is v s -> variant_image v' = Some s) /\
  (unfeatured v ->
     exists k, variant_id v = Some k /\
       match images with
       | ImagesArray imgs =>
           (forall img,
              last_tagged numToString (toString numToString k) imgs img ->
              variant_image v' = srcOf img) /\
           (untagged numToString (toString numToString k) imgs ->
              variant_image v' =
                match imgs with
                | img0 :: _ => srcOf img0
                | [] => variant_image v
                end)
       | ImagesOther o =>
           if na_length_positive o
           then exists img0,
                  na_first o = Entry img0 /\ variant_image v' = srcOf img0
           else variant_image v' = variant_image v
       | ImagesAbsent => variant_image v' = variant_image v
       end).

(** The fields of a variant other than [image]. *)
Definition same_but_image (v v' : variant) : Prop :=
  variant_id v' = variant_id v /\
  variant_title v' = variant_title v /\
  variant_price v' = variant_price v /\
  variant_compare_at_price v' = variant_compare_at_price v /\
  variant_sku v' = variant_sku v /\
  variant_available v' = variant_available v /\
  variant_inventory_quantity v' = variant_inventory_quantity v /\
  variant_option1 v' = variant_option1 v /\
  variant_option2 v' = variant_option2 v /\
  variant_option3 v' = variant_option3 v /\
  variant_options v' = variant_options v /\
  variant_featured_image v' = variant_featured_image v.

(** The output object [r] was built from the variant [v]. *)
Definition built_from (v : variant) (r : resolved) : Prop :=
  r_id r = variant_id v /\
  r_title r = variant_title v /\
  r_option1 r = or_null (variant_option1 v) /\
  r_option2 r = or_null (variant_option2 v) /\
  r_option3 r = or_null (variant_option3 v).

(** The list a call returned; empty when it threw. *)
Definition returned {A : Type} (r : result (list A)) : list A :=
  match r with
  | Ok l => l
  | Throw _ => []
  end.

(** ** Inputs of the scenarios *)

(** A variant that carries nothing but (possibly) an id and a featured
    image. *)
Definition bare_variant (i : option ident) (f : option featured) : variant :=
  {| variant_id := i;
     variant_title := None;
     variant_price := VUndefined;
     variant_compare_at_price := VUndefined;
     variant_sku := None;
     variant_available := None;
     variant_inventory_quantity := VUndefined;
     variant_option1 := None;
     variant_option2 := None;
     variant_option3 := None;
     variant_options := [];
     variant_featured_image := f;
     variant_image := None |}.

Definition bare_product (imgs : list image) (vs : list variant) : product :=
  {| product_title := None;
     product_handle := None;
     product_images := ImagesArray imgs;
     product_variants := Some vs |}.

(** [images = [{src: "/a_small_.jpg", variant_ids: ["9"]}]],
    [variants = [{id: "9"}, {id: "10"}]]. *)
Definition scenario_product : product :=
  bare_product
    [ImgObj {| img_src := Some "/a_small_.jpg";
               img_variant_ids := Some [IdStr "9"] |}]
    [bare_variant (Some (IdStr "9")) None;
     bare_variant (Some (IdStr "10")) None].

Definition scenario_origin : string := "https://shop.example".

(** One image, and one variant that has neither an [id] nor a featured
    image. *)
Definition missing_id_product : product :=
  bare_product
    [ImgObj {| img_src := Some "https://cdn.shopify.com/s/files/a.jpg";
               img_variant_ids := None |}]
    [bare_variant None None].

(** A variant whose featured image is the relative path
    [httpdocs/img/a.jpg]. *)
Definition relative_http_product : product :=
  bare_product []
    [bare_variant (Some (IdNum 1))
       (Some {| fi_src := Some "httpdocs/img/a.jpg" |})].

(** Two images tagged with the same variant id. *)
Definition two_images_product : product :=
  bare_product
    [ImgObj {| img_src := Some "https://cdn.shopify.com/s/files/a_small_.jpg";
               img_variant_ids := Some [IdNum 7; IdNum 8] |};
     ImgObj {| img_src := Some "https://cdn.shopify.com/s/files/b_large_.jpg";
               img_variant_ids := Some [IdNum 7] |}]
    [bare_variant (Some (IdStr "7")) None;
     bare_variant (Some (IdNum 8)) None].

(** Two images, the second tagged with the id 7, and three variants: one
    with the id 7 and a featured image, one with the id ["7"], one with the
    id 9. *)
Definition cascade_product : product :=
  bare_product
    [ImgObj {| img_src := Some "https://cdn.shopify.com/s/files/a_small_.jpg";
               img_variant_ids := None |};
     ImgObj {| img_src := Some "https://cdn.shopify.com/s/files/b_large_.jpg";
               img_variant_ids := Some [IdNum 7] |}]
    [bare_variant (Some (IdNum 7))
       (Some {| fi_src :=
                  Some "https://cdn.shopify.com/s/files/f_thumb_.jpg" |});
     bare_variant (Some (IdStr "7")) None;
     bare_variant (Some (IdNum 9)) None].

(** No image, and one variant with an id. *)
Definition no_images_product : product :=
  bare_product [] [bare_variant (Some (IdNum 9)) None].

(** No image, and one variant that already carries an [image]. *)
Definition kept_image_product : product :=
  bare_product []
    [set_image (bare_variant (Some (IdStr "1")) None) (Some "old.jpg")].

(** A CDN URL with two size-suffix tokens. *)
Definition two_token_url : string :=
  "https://cdn.shopify.com/s/files/a_small_b_large_.jpg".

(** * Further code of the crawlers *)

(** ** [extractCollectionHandle] *)

(** The text [[^\/]+] consumes: the longest prefix without a slash. *)
Fixpoint take_segment (s : string) : string :=
  match s with
  | EmptyString => EmptyString
  | String c s' =>
      if Ascii.eqb c "/" then EmptyString else String c (take_segment s')
  end.

(** [url.match(/\/collections\/([^\/]+)/)], then [match[1]] or [null]: the
    leftmost place where [/collections/] is followed by a character other
    than a slash, and the run of such characters. *)
Fixpoint extractCollectionHandle (url : string) : option string :=
  match url with
  | EmptyString => None
  | String _ rest =>
      match strip_prefix "/collections/" url with
      | Some r =>
          if str_truthy (take_segment r) then Some (take_segment r)
          else extractCollectionHandle rest
      | None => extractCollectionHandle rest
      end
  end.

(** No character of [s] is a slash. *)
Fixpoint no_slash (s : string) : bool :=
  match s with
  | EmptyString => true
  | String c s' => negb (Ascii.eqb c "/") && no_slash s'
  end.

(** ** [safeNavigate] *)

(** What [safeNavigate] throws: an [Error] or a [TypeError], with its
    message. *)
Inductive nav_error : Type :=
| NavError (message : string)
| NavTypeError (message : string).

(** The effects of a call, in the order they happen: the navigation
    requests, the timers it awaits (in milliseconds) and the lines it
    logs. *)
Inductive nav_event : Type :=
| Goto (url : string) (timeout : nat) (waitUntil : string)
| LogLoaded (url : string) (attempt : nat)
| WaitForBody
| Sleep (ms : nat)
| LogFailed (url : string) (attempt retries : nat) (message : string)
| LogWaiting (ms : nat).

(** The [options] argument; a field is [None] when it is missing. *)
Record nav_options : Type := {
  opt_retries : option nat;
  opt_timeout : option nat;
  opt_waitUntil : option string
}.

(** The command-line values the function reads. *)
Record nav_argv : Type := {
  argv_retries : nat;
  argv_timeout : nat;
  argv_wait_time : nat
}.

(** [o || d] on numbers: [0] and a missing value are falsy. *)
Definition nat_or (o : option nat) (d : nat) : nat :=
  match o with
  | Some (S n) => S n
  | _ => d
  end.

(** [o || d] on strings. *)
Definition str_or (o : option string) (d : string) : string :=
  if opt_truthy o then default d o else d.

Section SafeNavigate.

(** What [page.goto] resolves to. *)
Variable response : Type.

(** The page as the call finds it: the outcome of the [attempt]-th
    [page.goto] (the response, or the message of the error it throws), and
    whether [body] shows up in time after it. *)
Variable goto : nat -> response + string.
Variable body_ready : nat -> bool.

Variable argv : nav_argv.
Variable url : string.
Variable options : nav_options.

Definition nav_retries : nat := nat_or (opt_retries options) (argv_retries argv).
Definition nav_timeout : nat := nat_or (opt_timeout options) (argv_timeout argv).
Definition nav_waitUntil : string :=
  str_or (opt_waitUntil options) "domcontentloaded".

(** The statement after the loop:
    [throw new Error(`Failed to navigate ... ${lastError.message}`)];
    reading [message] of an undefined [lastError] is a [TypeError]. *)
Definition nav_give_up (lastError : option string) : nav_error :=
  match lastError with
  | Some message =>
      NavError ("Failed to navigate to " +:+ url +:+ " after " +:+
                pretty nav_retries +:+ " attempts: " +:+ message)
  | None =>
      NavTypeError "Cannot read properties of undefined (reading 'message')"
  end.

(** The [for] loop from [attempt] on, with [left] iterations to go. *)
Fixpoint nav_loop (left attempt : nat) (lastError : option string)
  : list nav_event * (response + nav_error) :=
  match left with
  | 0 => ([], inr (nav_give_up lastError))
  | S left' =>
      match goto attempt with
      | inl resp =>
          (Goto url nav_timeout nav_waitUntil ::
           (if (1 <? attempt)%nat then [LogLoaded url attempt] else []) ++
           WaitForBody ::
           (if body_ready attempt then [Sleep (argv_wait_time argv)] else []),
           inl resp)
      | inr message =>
          let '(events, outcome) :=
            nav_loop left' (S attempt) (Some message) in
          (Goto url nav_timeout nav_waitUntil ::
           LogFailed url attempt nav_retries message ::
           (if (attempt <? nav_retries)%nat
            then [LogWaiting (2000 * attempt); Sleep (2000 * attempt)]
            else []) ++
           events,
           outcome)
      end
  end.

(** [safeNavigate(page, url, options)] *)
Definition safeNavigate : list nav_event * (response + nav_error) :=
  nav_loop nav_retries 1 None.

End SafeNavigate.

(** The number of navigation requests in a trace. *)
Fixpoint gotos (events : list nav_event) : nat :=
  match events with
  | [] => 0
  | Goto _ _ _ :: rest => S (gotos rest)
  | _ :: rest => gotos rest
  end.

(** The time spent on back-off timers: the timers that follow a
    [LogWaiting] line. *)
Fixpoint backoff (events : list nav_event) : nat :=
  match events with
  | [] => 0
  | LogWaiting _ :: Sleep ms :: rest => ms + backoff rest
  | _ :: rest => backoff rest
  end.

(** ** Price ranges of the data processor *)

(** A product of the crawled data, as the processor reads it. [c_images]
    is [None] when the field is missing. *)
Record crawled : Type := {
  c_handle : option string;
  c_title : option string;
  c_price : value;
  c_url : option string;
  c_images : option (list string)
}.

(** The keys of [priceStats.ranges] and of [priceRanges]:
    ['Under $10'], ['$10-$20'], ['$20-$50'], ['$50-$100'], ['Over $100']. *)
Inductive range_name : Type :=
| Under10
| From10To20
| From20To50
| From50To100
| Over100.

Definition range_eqb (a b : range_name) : bool :=
  match a, b with
  | Under10, Under10
  | From10To20, From10To20
  | From20To50, From20To50
  | From50To100, From50To100
  | Over100, Over100 => true
  | _, _ => false
  end.

(** The global [isNaN(v)], which converts its argument to a number. *)
Definition isNaN (v : value) : bool := PrimFloat.is_nan (ToNumber v).

(** The [if]/[else if] chain of [generateStats] that picks the range
    counter to increment. *)
Definition statsRange (price : float) : range_name :=
  if (price <? 10)%float then Under10
  else if (price <? 20)%float then From10To20
  else if (price <? 50)%float then From20To50
  else if (price <? 100)%float then From50To100
  else Over100.

(** The price part of the loop body of [generateStats]: a price that is
    truthy and not [NaN] is pushed on [validPrices] and counted in one
    range. *)
Definition statsPriceStep (st : list float * (range_name -> nat))
    (product : crawled) : list float * (range_name -> nat) :=
  let price := c_price product in
  if ToBoolean price && negb (isNaN price) then
    let x := ToNumber price in
    ((st.1 ++ [x])%list,
     fun name =>
       if range_eqb name (statsRange x) then S (st.2 name) else st.2 name)
  else st.

(** [validPrices] and [priceStats.ranges] when the loop of
    [generateStats] ends. *)
Definition statsPrices (products : list crawled)
  : list float * (range_name -> nat) :=
  foldl statsPriceStep ([], fun _ => 0) products.

(** An entry [generatePriceRangeData] pushes. *)
Record price_entry : Type := {
  e_handle : option string;
  e_title : option string;
  e_price : float;
  e_url : option string;
  e_image : option string
}.

(** One value of the [priceRanges] object. *)
Record price_range : Type := {
  range_key : range_name;
  range_min : float;
  range_max : float;
  range_products : list price_entry
}.

(** The [priceRanges] object as it is declared, in the order of its
    keys. *)
#[warnings="-inexact-float"]
Definition priceRanges : list price_range :=
  [ {| range_key := Under10; range_min := 0; range_max := 9.99;
       range_products := [] |};
    {| range_key := From10To20; range_min := 10; range_max := 19.99;
       range_products := [] |};
    {| range_key := From20To50; range_min := 20; range_max := 49.99;
       range_products := [] |};
    {| range_key := From50To100; range_min := 50; range_max := 99.99;
       range_products := [] |};
    {| range_key := Over100; range_min := 100; range_max := infinity;
       range_products := [] |} ].

(** [price >= min && price <= max] *)
Definition in_range (r : price_range) (price : float) : bool :=
  (range_min r <=? price)%float && (price <=? range_max r)%float.

(** The inner loop: the entry goes to the first range that holds the
    price, and the loop breaks. *)
Fixpoint pushInRange (ranges : list price_range) (price : float)
    (e : price_entry) : list price_range :=
  match ranges with
  | [] => []
  | r :: rest =>
      if in_range r price then
        {| range_key := range_key r;
           range_min := range_min r;
           range_max := range_max r;
           range_products := (range_products r ++ [e])%list |} :: rest
      else r :: pushInRange rest price e
  end.

Definition entryOf (product : crawled) (price : float) : price_entry :=
  {| e_handle := c_handle product;
     e_title := c_title product;
     e_price := price;
     e_url := c_url product;
     e_image :=
       match c_images product with
       | Some (img :: _) => Some img
       | _ => None
       end |}.

(** The body of the loop over the products: a price that is [null] or
    [NaN] (or missing) is skipped. *)
Definition priceRangeStep (ranges : list price_range) (product : crawled)
  : list price_range :=
  match c_price product with
  | VNull => ranges
  | price =>
      if isNaN price then ranges
      else pushInRange ranges (ToNumber price)
             (entryOf product (ToNumber price))
  end.

(** The object [generatePriceRangeData] writes. *)
Definition generatePriceRangeData (products : list crawled)
  : list price_range :=
  foldl priceRangeStep priceRanges products.

(** The key of the first range that holds the price. *)
Fixpoint findRange (ranges : list price_range) (price : float)
  : option range_name :=
  match ranges with
  | [] => None
  | r :: rest =>
      if in_range r price then Some (range_key r) else findRange rest price
  end.

(** The range [generatePriceRangeData] files a price under, if any. *)
Definition priceRangeOf (price : value) : option range_name :=
  match price with
  | VNull => None
  | _ => if isNaN price then None else findRange priceRanges (ToNumber price)
  end.

(** The products filed under a key. *)
Fixpoint productsOf (name : range_name) (ranges : list price_range)
  : list price_entry :=
  match ranges with
  | [] => []
  | r :: rest =>
      if range_eqb (range_key r) name then range_products r
      else productsOf name rest
  end.

(** The [priceRanges] object with the lists of products it holds at some
    point of the loop. *)
#[warnings="-inexact-float"]
Definition rangesWith (l1 l2 l3 l4 l5 : list price_entry) : list price_range :=
  [ {| range_key := Under10; range_min := 0; range_max := 9.99;
       range_products := l1 |};
    {| range_key := From10To20; range_min := 10; range_max := 19.99;
       range_products := l2 |};
    {| range_key := From20To50; range_min := 20; range_max := 49.99;
       range_products := l3 |};
    {| range_key := From50To100; range_min := 50; range_max := 99.99;
       range_products := l4 |};
    {| range_key := Over100; range_min := 100; range_max := infinity;
       range_products := l5 |} ].

(** The entry of a product when its price is filed under [name]. *)
Definition filedUnder (name : range_name) (product : crawled)
  : option price_entry :=
  match priceRangeOf (c_price product) with
  | Some n =>
      if range_eqb n name
      then Some (entryOf product (ToNumber (c_price product)))
      else None
  | None => None
  end.

(** Does [generateStats] count the product under [name]? *)
Definition countedUnder (name : range_name) (product : crawled) : bool :=
  ToBoolean (c_price product) && negb (isNaN (c_price product)) &&
  range_eqb name (statsRange (ToNumber (c_price product))).

(** The entries a list holds, as a list. *)
Definition entriesOf (o : option price_entry) : list price_entry :=
  match o with
  | Some e => [e]
  | None => []
  end.

(** ** [parseMoney] *)

(** The characters [/[^\d,.]/g] leaves in place. *)
Definition is_money_char (c : ascii) : bool :=
  is_digit c || Ascii.eqb c "," || Ascii.eqb c ".".

(** [s.replace(/[^...]/g, '')]: the characters of [s] that [keep]
    accepts. *)
Fixpoint filter_chars (keep : ascii -> bool) (s : string) : string :=
  match s with
  | EmptyString => EmptyString
  | String c s' =>
      if keep c then String c (filter_chars keep s') else filter_chars keep s'
  end.

(** [\d{2}$]: exactly two digits and then the end of the string. *)
Definition two_digits (s : string) : bool :=
  match s with
  | String a (String b EmptyString) => is_digit a && is_digit b
  | _ => false
  end.

(** [s.replace(/,(\d{2})$/, '.$1')] *)
Fixpoint decimal_comma (s : string) : string :=
  match s with
  | EmptyString => EmptyString
  | String c s' =>
      if Ascii.eqb c "," && two_digits s' then String "." s'
      else String c (decimal_comma s')
  end.

(** The argument of [parseFloat] in [parseMoney]. *)
Definition cleanMoney (moneyString : string) : string :=
  filter_chars (fun c => negb (Ascii.eqb c ","))
    (decimal_comma (filter_chars is_money_char moneyString)).

(** [parseMoney(moneyString)], over the [parseFloat] of the engine. *)
Definition parseMoney (parseFloat : string -> float) (moneyString : string)
  : value :=
  if negb (str_truthy moneyString) then VNull
  else VNum (parseFloat (cleanMoney moneyString)).

(** Does [f] accept every character of [s]? *)
Fixpoint all_chars (f : ascii -> bool) (s : string) : bool :=
  match s with
  | EmptyString => true
  | String c s' => f c && all_chars f s'
  end.

(** ** The product handle of a product URL *)

(** The text after the first occurrence of [sep] in [s], if there is
    one. *)
Fixpoint after_first (sep s : string) : option string :=
  match strip_prefix sep s with
  | Some r => Some r
  | None =>
      match s with
      | EmptyString => None
      | String _ s' => after_first sep s'
      end
  end.

(** [s.split(sep)[0]]: the text before the first occurrence of [sep] in
    [s], all of [s] when there is none. *)
Fixpoint before_first (sep s : string) : string :=
  match strip_prefix sep s with
  | Some _ => EmptyString
  | None =>
      match s with
      | EmptyString => EmptyString
      | String c s' => String c (before_first sep s')
      end
  end.

(** [s.split(sep)[1]]: the text between the first and the second
    occurrence of [sep]; [undefined] when [sep] does not occur. *)
Definition split_1 (sep s : string) : option string :=
  before_first sep <$> after_first sep s.

(** [productUrl.split('/products/')[1]?.split('?')[0]] *)
Definition productHandle (productUrl : string) : option string :=
  before_first "?" <$> split_1 "/products/" productUrl.

(** * Properties *)

(** ** Strings and the rewrite *)

Lemma strip_prefix_Some p s r :
  strip_prefix p s = Some r -> s = p +:+ r.
Proof.
  revert s. induction p as [|c p IH]; intros s; simpl.
  - by intros [= ->].
  - destruct s as [|d s]; [done|].
    destruct (Ascii.eqb_spec c d) as [->|]; [|done].
    intros H. by rewrite (IH _ H).
Qed.

Lemma match_tokens_Some toks s r :
  match_tokens toks s = Some r ->
  exists t, t ∈ toks /\ s = ("_" +:+ t +:+ "_") +:+ r.
Proof.
  induction toks as [|t toks IH]; cbn [match_tokens]; [done|].
  destruct (strip_prefix _ s) as [r'|] eqn:E.
  - intros [= ->]. exists t. split; [left|].
    by apply strip_prefix_Some in E.
  - intros H. destruct (IH H) as (t' & Hin & ->). exists t'. split; [by right | done].
Qed.

Lemma replace_changes s r :
  match_size_token s = Some r -> high_res_token +:+ r <> s.
Proof.
  intros H. apply match_tokens_Some in H as (t & Hin & ->).
  unfold size_tokens in Hin.
  repeat (apply elem_of_cons in Hin as [-> | Hin]; [simpl; discriminate|]).
  by apply elem_of_nil in Hin.
Qed.

Lemma replace_fixed_iff s :
  replace_size_token s = s <-> has_size_token s = false.
Proof.
  induction s as [|c s IH]; [done|].
  cbn [replace_size_token has_size_token].
  destruct (match_size_token (String c s)) as [r|] eqn:E.
  - split; [|done]. intros H. by apply replace_changes in E.
  - rewrite <- IH. split; [by intros [= ->] | by intros ->].
Qed.

Lemma highRes_nonempty u : str_truthy u = true -> str_truthy (highRes u) = true.
Proof.
  unfold highRes. destruct (includes u cdn_host); [|done].
  destruct u as [|c u]; [done|]. intros _. cbn [replace_size_token].
  by destruct (match_size_token (String c u)).
Qed.

(** ** Numbers *)

Lemma SFeqb_refl_finite s m e :
  SFeqb (S754_finite s m e) (S754_finite s m e) = true.
Proof.
  unfold SFeqb, SFcompare. rewrite Z.compare_refl.
  rewrite Pos.compare_cont_refl. by destruct s.
Qed.

(** A number above 10000 is neither zero nor [NaN]. *)
Lemma gt_10000_truthy (x : float) :
  (10000 <? x)%float = true -> num_truthy x = true.
Proof.
  unfold num_truthy, PrimFloat.is_zero, PrimFloat.is_nan.
  rewrite FloatAxioms.ltb_spec, !FloatAxioms.eqb_spec.
  set (k := Prim2SF 10000). vm_compute in k. subst k.
  set (z := Prim2SF 0). vm_compute in z. subst z.
  destruct (Prim2SF x) as [s | s | | s m e]; try (simpl; discriminate).
  - destruct s; [simpl; discriminate | reflexivity].
  - intros _. rewrite SFeqb_refl_finite. by destruct s.
Qed.

(** ** Sequencing *)

Lemma mapR_Forall2 {A B : Type} (f : A -> result B) l out :
  mapR f l = Ok out -> Forall2 (fun a b => f a = Ok b) l out.
Proof.
  revert out. induction l as [|a l IH]; intros out; cbn [mapR].
  - intros [= <-]. constructor.
  - destruct (f a) as [b|] eqn:Hb; [|done]. cbn [bind].
    destruct (mapR f l) as [bs|]; [|done]. cbn [bind].
    intros [= <-]. constructor; [done | by apply IH].
Qed.

Lemma mapR_total {A B : Type} (f : A -> result B) l :
  Forall (fun a => exists b, f a = Ok b) l -> exists out, mapR f l = Ok out.
Proof.
  induction 1 as [|a l [b Hb] _ [bs Hbs]]; cbn [mapR].
  - by eexists.
  - rewrite Hb. cbn [bind]. rewrite Hbs. by eexists.
Qed.

(** ** The featured image of a variant *)

Lemma featuredSrc_Some v s : featuredSrc v = Some s <-> featured_is v s.
Proof.
  unfold featuredSrc, featured_is. split.
  - destruct (variant_featured_image v) as [fi|]; [|done].
    destruct (fi_src fi) as [[|c t]|] eqn:Hsrc; cbn; try done.
    intros [= <-]. by exists fi.
  - intros (fi & -> & -> & Hne). by destruct s.
Qed.

Lemma featuredSrc_None v : featuredSrc v = None <-> unfeatured v.
Proof.
  split.
  - intros H s Hs%featuredSrc_Some. congruence.
  - intros H. destruct (featuredSrc v) as [s|] eqn:E; [|done].
    apply featuredSrc_Some in E. by apply H in E.
Qed.

Section CrawlFacts.

Variable numToString : float -> string.
Variable url_href : string -> string -> result string.
Variable origin : string.

Lemma fullImageUrl_total s a :
  absoluteUrl url_href origin s = Ok a ->
  fullImageUrl url_href origin s = Ok (highRes a).
Proof. unfold fullImageUrl. by intros ->. Qed.

(** *** The variant-image map *)

Lemma setAll_lookup {V : Type} (u : V) ids (m : gmap string V) k :
  setAll numToString u ids m !! k =
    if decide (k ∈ toString numToString <$> ids) then Some u else m !! k.
Proof.
  unfold setAll. revert m.
  induction ids as [|i ids IH]; intros m; cbn [foldl].
  - rewrite decide_False; [done | by intros ?%elem_of_nil].
  - rewrite IH. rewrite fmap_cons.
    destruct (decide (k ∈ toString numToString <$> ids)) as [Hin|Hin].
    + rewrite decide_True; [done | by right].
    + destruct (decide (k = toString numToString i)) as [->|Hne].
      * rewrite decide_True by left. apply lookup_insert_eq.
      * rewrite decide_False by (by intros [?|?]%elem_of_cons).
        by apply lookup_insert_ne.
Qed.

Lemma mapImage_tagged m img m' key :
  mapImage numToString url_href origin m img = Ok m' ->
  tagged numToString key img = true ->
  exists s u, sourceOf img = Some s /\
    fullImageUrl url_href origin s = Ok u /\ m' !! key = Some u.
Proof.
  destruct img as [s|o]; [done|]. cbn [mapImage tagged sourceOf].
  destruct (img_variant_ids o) as [ids|]; [|done].
  destruct (img_src o) as [s|]; [|done].
  destruct (fullImageUrl url_href origin s) as [u|] eqn:Hu; [|done].
  cbn [bind]. intros [= <-] Hin. apply bool_decide_eq_true in Hin.
  exists s, u. repeat split; [done|].
  rewrite setAll_lookup. by rewrite decide_True.
Qed.

Lemma mapImage_untagged m img m' key :
  mapImage numToString url_href origin m img = Ok m' ->
  tagged numToString key img = false ->
  m' !! key = m !! key.
Proof.
  destruct img as [s|o]; cbn [mapImage tagged]; [by intros [= <-]|].
  destruct (img_variant_ids o) as [ids|]; [|by intros [= <-]].
  destruct (img_src o) as [s|]; [|done].
  destruct (fullImageUrl url_href origin s) as [u|]; [|done].
  cbn [bind]. intros [= <-] Hin. apply bool_decide_eq_false in Hin.
  rewrite setAll_lookup. by rewrite decide_False.
Qed.

Lemma mapImages_untagged imgs m m' key :
  mapImages numToString url_href origin m imgs = Ok m' ->
  Forall (fun i => tagged numToString key i = false) imgs ->
  m' !! key = m !! key.
Proof.
  revert m. induction imgs as [|img imgs IH]; intros m; cbn [mapImages].
  - by intros [= <-].
  - destruct (mapImage numToString url_href origin m img) as [m1|] eqn:H1; [|done].
    cbn [bind]. intros H Hall.
    apply Forall_cons in Hall as [Hh Ht].
    rewrite (IH _ H Ht). by eapply mapImage_untagged.
Qed.

Lemma mapImages_last pre img post m m' key :
  mapImages numToString url_href origin m (pre ++ img :: post) = Ok m' ->
  tagged numToString key img = true ->
  Forall (fun i => tagged numToString key i = false) post ->
  exists s u, sourceOf img = Some s /\
    fullImageUrl url_href origin s = Ok u /\ m' !! key = Some u.
Proof.
  revert m. induction pre as [|x pre IH]; intros m; cbn [app mapImages].
  - destruct (mapImage numToString url_href origin m img) as [m1|] eqn:H1; [|done].
    cbn [bind]. intros H Ht Hpost.
    destruct (mapImage_tagged _ _ _ _ H1 Ht) as (s & u & ? & ? & Hk).
    exists s, u. repeat split; [done..|].
    by rewrite (mapImages_untagged _ _ _ _ H Hpost).
  - destruct (mapImage numToString url_href origin m x) as [m1|]; [|done].
    cbn [bind]. apply IH.
Qed.

Lemma mapImages_total imgs m :
  Forall (fun img =>
    match img with
    | ImgStr _ => True
    | ImgObj o =>
        is_Some (img_variant_ids o) ->
        exists s a, img_src o = Some s /\
          absoluteUrl url_href origin s = Ok a
    end) imgs ->
  exists m', mapImages numToString url_href origin m imgs = Ok m'.
Proof.
  intros Hall. revert m.
  induction Hall as [|img imgs Himg _ IH]; intros m; cbn [mapImages].
  - by eexists.
  - assert (exists m1, mapImage numToString url_href origin m img = Ok m1) as [m1 ->].
    { destruct img as [s|o]; cbn [mapImage]; [by eexists|].
      destruct (img_variant_ids o) as [ids|] eqn:Hids; [|by eexists].
      destruct Himg as (s & a & -> & Ha); [by eexists|].
      rewrite (fullImageUrl_total _ _ Ha). by eexists. }
    cbn [bind]. apply IH.
Qed.

(** *** The list [images] *)

Lemma crawlImages_total p :
  (forall s, s ∈ omap sourceOf (images_of p) ->
     exists a, absoluteUrl url_href origin s = Ok a) ->
  exists images, crawlImages url_href origin p = Ok images.
Proof.
  unfold crawlImages, images_of.
  destruct (product_images p) as [|imgs|na]; [by eexists| |by eexists].
  intros Hsrc.
  destruct (mapR_total (imageUrlOf url_href origin) imgs) as [urls ->];
    [|by eexists].
  apply Forall_forall. intros img Himg.
  assert (Hs : forall s, sourceOf img = Some s ->
            exists a, absoluteUrl url_href origin s = Ok a).
  { intros s Hs. apply Hsrc. apply list_elem_of_omap. by exists img. }
  destruct img as [s|o]; cbn [imageUrlOf sourceOf] in *.
  - destruct (Hs s eq_refl) as [a Ha].
    rewrite (fullImageUrl_total _ _ Ha). by eexists.
  - destruct (img_src o) as [s|]; [|by eexists].
    destruct (str_truthy s); [|by eexists].
    destruct (Hs s eq_refl) as [a Ha].
    rewrite (fullImageUrl_total _ _ Ha). by eexists.
Qed.

(** *** The variants *)

Lemma crawlVariants_inv price p vs out :
  product_variants p = Some vs ->
  crawlVariants numToString url_href origin price p = Ok out ->
  exists images m,
    crawlImages url_href origin p = Ok images /\
    buildVariantImageMap numToString url_href origin p = Ok m /\
    mapR (resolveVariant numToString url_href origin m images price) vs = Ok out.
Proof.
  unfold crawlVariants. intros ->.
  destruct (crawlImages url_href origin p) as [images|]; [|done].
  cbn [bind].
  destruct (buildVariantImageMap numToString url_href origin p) as [m|]; [|done].
  cbn [bind]. intros H. by exists images, m.
Qed.

Lemma crawlVariants_no_variants price p out :
  product_variants p = None ->
  crawlVariants numToString url_href origin price p = Ok out -> out = [].
Proof.
  unfold crawlVariants. intros ->.
  destruct (crawlImages url_href origin p); [|done].
  cbn [bind]. by intros [= <-].
Qed.

Lemma resolveVariant_inv m images price v r :
  resolveVariant numToString url_href origin m images price v = Ok r ->
  variantImageOf numToString url_href origin m images v = Ok (r_image r) /\
  built_from v r.
Proof.
  unfold resolveVariant.
  destruct (variantImageOf numToString url_href origin m images v) as [img|]; [|done].
  cbn [bind]. intros [= <-]. by repeat split.
Qed.

Lemma variantImageOf_cascade m images v img :
  variantImageOf numToString url_href origin m images v = Ok img ->
  match featuredSrc v with
  | Some s =>
      exists u, fullImageUrl url_href origin s = Ok u /\ img = Some u
  | None =>
      exists k, variant_id v = Some k /\
        img = match m !! toString numToString k with
              | Some u => Some u
              | None => head images
              end
  end.
Proof.
  unfold variantImageOf. destruct (featuredSrc v) as [s|].
  - destruct (fullImageUrl url_href origin s) as [u|]; [|done].
    cbn [bind]. intros [= <-]. by exists u.
  - destruct (variant_id v) as [k|]; [|done]. intros H. exists k.
    split; [done|]. destruct (m !! toString numToString k); by injection H as <-.
Qed.

Lemma variantImageOf_total m images v :
  match featuredSrc v with
  | Some s => exists a, absoluteUrl url_href origin s = Ok a
  | None => is_Some (variant_id v)
  end ->
  exists img, variantImageOf numToString url_href origin m images v = Ok img.
Proof.
  unfold variantImageOf. destruct (featuredSrc v) as [s|].
  - intros [a Ha]. rewrite (fullImageUrl_total _ _ Ha). by eexists.
  - intros [k ->]. destruct (m !! toString numToString k); by eexists.
Qed.

Lemma absoluteUrl_ok s :
  startsWith s "http" = true \/ (exists a, url_href s origin = Ok a) ->
  exists a, absoluteUrl url_href origin s = Ok a.
Proof.
  unfold absoluteUrl. intros [->|[a Ha]]; [by eexists|].
  destruct (startsWith s "http"); cbn [negb]; by eexists.
Qed.

(** A well-formed input makes no step throw. *)
Lemma crawlVariants_total price p :
  well_formed url_href origin p ->
  exists out, crawlVariants numToString url_href origin price p = Ok out.
Proof.
  unfold well_formed, image_source. intros (Hsrc & Himg & Hid).
  unfold crawlVariants.
  destruct (crawlImages_total p) as [images ->].
  { intros s (img & Hin & Hs)%list_elem_of_omap.
    apply absoluteUrl_ok, Hsrc. left. by exists img. }
  cbn [bind]. unfold variants_of, images_of in *.
  destruct (product_variants p) as [vs|]; [|by eexists].
  assert (exists m, buildVariantImageMap numToString url_href origin p = Ok m)
    as [m ->].
  { unfold buildVariantImageMap.
    destruct (product_images p) as [|imgs|na]; [by eexists| |by eexists].
    apply mapImages_total. apply Forall_forall.
    intros [s|o] Hin; [done|]. intros Hids.
    destruct (Himg o Hin Hids) as [s Hs].
    destruct (absoluteUrl_ok s) as [a Ha].
    { apply Hsrc. left. by exists (ImgObj o). }
    by exists s, a. }
  cbn [bind default] in *. apply mapR_total. apply Forall_forall.
  intros v Hv.
  destruct (variantImageOf_total m images v) as [img Himg'].
  { destruct (featuredSrc v) as [s|] eqn:Hf.
    - apply absoluteUrl_ok, Hsrc. right. exists v.
      split; [done | by apply featuredSrc_Some].
    - apply Hid; [done | by apply featuredSrc_None]. }
  unfold resolveVariant. rewrite Himg'. by eexists.
Qed.

Lemma fullImageUrl_normal s u :
  fullImageUrl url_href origin s = Ok u <-> normal_form url_href origin s u.
Proof.
  unfold fullImageUrl, absoluteUrl, normal_form, highRes, cdn_host.
  destruct (startsWith s "http"); cbn [negb].
  - split.
    + intros [= <-]. by exists s.
    + by intros (a & -> & ->).
  - split.
    + destruct (url_href s origin) as [a|]; [|done].
      intros [= <-]. by exists a.
    + by intros (a & -> & ->).
Qed.

(** The list [images]: the non-empty normal forms of the listed sources,
    in the order of the input. *)
Lemma imageUrls_listed imgs ous :
  mapR (imageUrlOf url_href origin) imgs = Ok ous ->
  exists urls,
    Forall2 (normal_form url_href origin) (omap listed_source imgs) urls /\
    filter_truthy ous = filter (fun u => u <> "") urls.
Proof.
  revert ous. induction imgs as [|img imgs IH]; intros ous; cbn [mapR].
  - intros [= <-]. exists []. split; [constructor | done].
  - destruct (imageUrlOf url_href origin img) as [o|] eqn:Himg; [|done].
    cbn [bind].
    destruct (mapR (imageUrlOf url_href origin) imgs) as [os|]; [|done].
    cbn [bind]. intros [= <-].
    destruct (IH os eq_refl) as (urls & Hurls & Hfilter).
    assert (Hone : forall s u,
      listed_source img = Some s -> fullImageUrl url_href origin s = Ok u ->
      o = Some u ->
      exists urls',
        Forall2 (normal_form url_href origin)
          (omap listed_source (img :: imgs)) urls' /\
        filter_truthy (o :: os) = filter (fun u => u <> "") urls').
    { intros s u Hs Hu ->. exists (u :: urls). cbn [omap list_omap].
      rewrite Hs. split.
      - constructor; [by apply fullImageUrl_normal | done].
      - unfold filter_truthy in *. cbn [omap list_omap]. rewrite filter_cons.
        destruct u as [|c u]; cbn.
        + by rewrite decide_False by (by intros ?).
        + rewrite decide_True by done. by rewrite Hfilter. }
    destruct img as [s|io]; cbn [imageUrlOf] in Himg.
    + destruct (fullImageUrl url_href origin s) as [u|] eqn:Hu; [|done].
      cbn [bind] in Himg. injection Himg as <-. by apply (Hone s u).
    + destruct (img_src io) as [[|c t]|] eqn:Hsrc; cbn [str_truthy] in Himg.
      * injection Himg as <-. exists urls. cbn [omap list_omap listed_source].
        by rewrite Hsrc.
      * destruct (fullImageUrl url_href origin (String c t)) as [u|] eqn:Hu;
          [|done].
        cbn [bind] in Himg. injection Himg as <-.
        apply (Hone (String c t) u); [|done..].
        cbn [listed_source]. by rewrite Hsrc.
      * injection Himg as <-. exists urls. cbn [omap list_omap listed_source].
        by rewrite Hsrc.
Qed.

Lemma crawlImages_listed p images :
  crawlImages url_href origin p = Ok images ->
  exists urls,
    Forall2 (normal_form url_href origin)
      (omap listed_source (images_of p)) urls /\
    images = filter (fun u => u <> "") urls.
Proof.
  unfold crawlImages, images_of.
  destruct (product_images p) as [|imgs|na].
  - intros [= <-]. exists []. split; [constructor | done].
  - destruct (mapR (imageUrlOf url_href origin) imgs) as [ous|] eqn:Hm;
      [|done].
    cbn [bind]. intros [= <-]. by apply imageUrls_listed.
  - intros [= <-]. exists []. split; [constructor | done].
Qed.

(** The map [variantImageMap]: a key the last image [img] lists is bound
    to the normal form of the source of [img]; a key no image lists is not
    bound. *)
Lemma buildVariantImageMap_last p m key img :
  buildVariantImageMap numToString url_href origin p = Ok m ->
  last_tagged numToString key (images_of p) img ->
  exists s u,
    sourceOf img = Some s /\ normal_form url_href origin s u /\
    m !! key = Some u.
Proof.
  unfold buildVariantImageMap, images_of.
  intros Hm (pre & post & Himgs & Htag & Hpost).
  destruct (product_images p) as [|imgs|na];
    [by destruct pre | | by destruct pre].
  subst imgs.
  destruct (mapImages_last _ _ _ _ _ _ Hm Htag Hpost) as (s & u & Hs & Hu & Hk).
  exists s, u. split; [done|]. split; [by apply fullImageUrl_normal | done].
Qed.

Lemma buildVariantImageMap_untagged p m key :
  buildVariantImageMap numToString url_href origin p = Ok m ->
  untagged numToString key (images_of p) ->
  m !! key = None.
Proof.
  unfold buildVariantImageMap, images_of, untagged. intros Hm Hun.
  destruct (product_images p) as [|imgs|na].
  - by injection Hm as <-.
  - by rewrite (mapImages_untagged _ _ _ _ Hm Hun).
  - by injection Hm as <-.
Qed.

(** The cascade of [crawlCollection] in terms of the input alone. *)
Lemma resolveVariant_rules p m images price v r :
  crawlImages url_href origin p = Ok images ->
  buildVariantImageMap numToString url_href origin p = Ok m ->
  resolveVariant numToString url_href origin m images price v = Ok r ->
  crawl_rules numToString url_href origin (images_of p) v r.
Proof.
  intros Himages Hmap Hres.
  apply resolveVariant_inv in Hres as [Himg _].
  apply variantImageOf_cascade in Himg.
  destruct (featuredSrc v) as [s0|] eqn:Hf.
  - destruct Himg as (u & Hu & Hr). split.
    + intros s Hs%featuredSrc_Some. replace s with s0 by congruence.
      exists u. split; [by apply fullImageUrl_normal | done].
    + intros Hun%featuredSrc_None. congruence.
  - destruct Himg as (k & Hk & Hr). split.
    + intros s Hs%featuredSrc_Some. congruence.
    + intros _. exists k. split; [done|]. split.
      * intros img Hlast.
        destruct (buildVariantImageMap_last _ _ _ _ Hmap Hlast)
          as (s & u & Hs & Hu & Hkey).
        exists s, u. by rewrite Hr, Hkey.
      * intros Hun.
        rewrite (buildVariantImageMap_untagged _ _ _ Hmap Hun) in Hr.
        destruct (crawlImages_listed _ _ Himages) as (urls & Hurls & ->).
        by exists urls.
Qed.


Lemma crawlVariants_rules price p out :
  crawlVariants numToString url_href origin price p = Ok out ->
  Forall2 (crawl_rules numToString url_href origin (images_of p))
    (variants_of p) out.
Proof.
  intros Hrun. unfold variants_of.
  destruct (product_variants p) as [vs|] eqn:Hvs; cbn [default].
  - destruct (crawlVariants_inv _ _ _ _ Hvs Hrun)
      as (images & m & Himages & Hmap & Hout).
    apply mapR_Forall2 in Hout.
    eapply Forall2_impl; [exact Hout|]. intros v r Hres. cbn beta in Hres.
    exact (resolveVariant_rules _ _ _ _ _ _ Himages Hmap Hres).
  - rewrite (crawlVariants_no_variants _ _ _ Hvs Hrun). constructor.
Qed.

(** A call that returns yields one object per input variant, in input
    order, each built from the variant at the same position and carrying
    the image the cascade gives it; a call can only throw on an input that
    is not well formed. *)
Lemma crawlVariants_shape price p :
  match crawlVariants numToString url_href origin price p with
  | Ok out =>
      length out = length (variants_of p) /\
      Forall2 (fun v r =>
        built_from v r /\
        crawl_rules numToString url_href origin (images_of p) v r)
        (variants_of p) out
  | Throw _ => ~ well_formed url_href origin p
  end.
Proof.
  destruct (crawlVariants numToString url_href origin price p)
    as [out|e] eqn:Hrun.
  - assert (HF : Forall2 (fun v r =>
        built_from v r /\
        crawl_rules numToString url_href origin (images_of p) v r)
        (variants_of p) out).
    { unfold variants_of.
      destruct (product_variants p) as [vs|] eqn:Hvs; cbn [default].
      - destruct (crawlVariants_inv _ _ _ _ Hvs Hrun)
          as (images & m & Himages & Hmap & Hout).
        apply mapR_Forall2 in Hout.
        eapply Forall2_impl; [exact Hout|]. intros v r Hres.
        cbn beta in Hres. split.
        + by apply resolveVariant_inv in Hres as [_ ?].
        + exact (resolveVariant_rules _ _ _ _ _ _ Himages Hmap Hres).
      - rewrite (crawlVariants_no_variants _ _ _ Hvs Hrun).
        constructor. }
    split; [|done]. symmetry. by eapply Forall2_length.
  - intros Hwf.
    destruct (crawlVariants_total price p Hwf) as [out Hout].
    congruence.
Qed.

End CrawlFacts.

(** ** [processVariantImages] *)

Lemma same_but_image_refl v : same_but_image v v.
Proof. by repeat split. Qed.

Lemma firstImage_frame images v v' :
  firstImage images v = Ok v' -> same_but_image v v'.
Proof.
  unfold firstImage.
  destruct images as [|[|img0 imgs]|o]; try (intros [= <-]; by repeat split).
  destruct (na_length_positive o); [|intros [= <-]; by repeat split].
  destruct (na_first o); try done. intros [= <-]. by repeat split.
Qed.

Lemma firstImage_again images v v' :
  firstImage images v = Ok v' -> firstImage images v' = Ok v'.
Proof.
  unfold firstImage.
  destruct images as [|[|img0 imgs]|o]; try (by intros [= <-]).
  destruct (na_length_positive o); [|by intros [= <-]].
  destruct (na_first o); try done. by intros [= <-].
Qed.

(** The fallback throws exactly when [images[0]] cannot be read. *)
Lemma firstImage_ok_iff images v :
  (exists v', firstImage images v = Ok v') <-> first_unreadable images = false.
Proof.
  unfold firstImage, first_unreadable.
  destruct images as [|[|img0 imgs]|o]; try (split; [done | by eexists]).
  destruct (na_length_positive o); cbn [andb]; [|split; [done | by eexists]].
  destruct (na_first o); split; try done; try (by intros [? ?]); by eexists.
Qed.

Lemma forEachVariant_frame f vs :
  (forall v v', f v = Ok v' -> same_but_image v v') ->
  Forall2 same_but_image vs (forEachVariant f vs).1.
Proof.
  intros Hf. induction vs as [|v vs IH]; cbn [forEachVariant].
  - constructor.
  - destruct (f v) as [v'|e] eqn:Hv.
    + destruct (forEachVariant f vs) as [done e]. cbn [fst] in *.
      constructor; [by apply Hf | done].
    + cbn [fst]. apply Forall_Forall2_diag, Forall_forall.
      intros ? _. apply same_but_image_refl.
Qed.

Lemma forEachVariant_again f vs :
  (forall v v', f v = Ok v' -> f v' = Ok v') ->
  forEachVariant f (forEachVariant f vs).1 = forEachVariant f vs.
Proof.
  intros Hf. induction vs as [|v vs IH]; [done|]. cbn [forEachVariant].
  destruct (f v) as [v'|e] eqn:Hv.
  - destruct (forEachVariant f vs) as [done e] eqn:Hrest. cbn [fst] in *.
    cbn [forEachVariant]. rewrite (Hf _ _ Hv), IH. done.
  - cbn [fst forEachVariant]. by rewrite Hv.
Qed.

Lemma forEachVariant_completes f vs vs' :
  forEachVariant f vs = (vs', None) <->
  Forall2 (fun a b => f a = Ok b) vs vs'.
Proof.
  revert vs'. induction vs as [|v vs IH]; intros vs'; cbn [forEachVariant].
  - split; [intros [= <-]; constructor | by intros ->%Forall2_nil_inv_l].
  - destruct (f v) as [w|e] eqn:Hv.
    + destruct (forEachVariant f vs) as [done e] eqn:Hrest. split.
      * intros [= <- ->]. constructor; [done | by apply IH].
      * intros (b & bs & Hb & Hbs & ->)%Forall2_cons_inv_l.
        apply IH in Hbs. injection Hbs as -> ->. congruence.
    + split; [done|].
      intros (b & bs & Hb & _)%Forall2_cons_inv_l. congruence.
Qed.

Lemma forEachVariant_stops f done v rest e done' :
  Forall2 (fun a b => f a = Ok b) done done' ->
  f v = Throw e ->
  forEachVariant f (done ++ v :: rest) = ((done' ++ v :: rest)%list, Some e).
Proof.
  intros Hdone Hv. induction Hdone as [|a b l l' Hab _ IH];
    cbn [app forEachVariant].
  - by rewrite Hv.
  - by rewrite Hab, IH.
Qed.

Section ProcessFacts.

Variable numToString : float -> string.

Lemma assignImage_frame m images v v' :
  assignImage numToString m images v = Ok v' -> same_but_image v v'.
Proof.
  unfold assignImage. destruct (featuredSrc v).
  - intros [= <-]. by repeat split.
  - destruct (variant_id v) as [k|] eqn:Hk; [|done].
    destruct (m !! toString numToString k).
    + intros [= <-]. by repeat split.
    + apply firstImage_frame.
Qed.

Lemma mapImageSrc_tagged m img key :
  tagged numToString key img = true ->
  mapImageSrc numToString m img !! key = Some (srcOf img).
Proof.
  destruct img as [s|o]; [done|]. cbn [tagged mapImageSrc srcOf].
  destruct (img_variant_ids o) as [ids|]; [|done].
  intros Hin%bool_decide_eq_true. rewrite setAll_lookup.
  by rewrite decide_True.
Qed.

Lemma mapImageSrc_untagged m img key :
  tagged numToString key img = false ->
  mapImageSrc numToString m img !! key = m !! key.
Proof.
  destruct img as [s|o]; [done|]. cbn [tagged mapImageSrc].
  destruct (img_variant_ids o) as [ids|]; [|done].
  intros Hin%bool_decide_eq_false. rewrite setAll_lookup.
  by rewrite decide_False.
Qed.

Lemma foldl_mapImageSrc_untagged imgs m key :
  Forall (fun i => tagged numToString key i = false) imgs ->
  foldl (mapImageSrc numToString) m imgs !! key = m !! key.
Proof.
  intros Hall. revert m.
  induction Hall as [|i imgs Hi _ IH]; intros m; cbn [foldl]; [done|].
  rewrite IH. by apply mapImageSrc_untagged.
Qed.

(** The first pass of [processVariantImages] keeps, for a key, the [src]
    of the last image that lists it, and binds no other key. *)
Lemma firstPass_last p key img :
  last_tagged numToString key (images_of p) img ->
  firstPass numToString p !! key = Some (srcOf img).
Proof.
  unfold firstPass, images_of. intros (pre & post & Himgs & Htag & Hpost).
  destruct (product_images p) as [|imgs|na];
    [by destruct pre | | by destruct pre].
  subst imgs. rewrite foldl_app. cbn [foldl].
  rewrite (foldl_mapImageSrc_untagged _ _ _ Hpost).
  by apply mapImageSrc_tagged.
Qed.

Lemma firstPass_untagged p key :
  untagged numToString key (images_of p) ->
  firstPass numToString p !! key = None.
Proof.
  unfold firstPass, images_of, untagged. intros Hun.
  destruct (product_images p) as [|imgs|na]; [done| |done].
  by rewrite (foldl_mapImageSrc_untagged _ _ _ Hun).
Qed.

Lemma firstPass_not_array p key :
  (forall imgs, product_images p <> ImagesArray imgs) ->
  firstPass numToString p !! key = None.
Proof.
  unfold firstPass. intros H.
  destruct (product_images p) as [|imgs|na]; [done| |done].
  by destruct (H imgs).
Qed.

(** The rules of [processVariantImages], in the order it tries them; the
    URLs are assigned as they are. *)
Lemma assignImage_cascade m images v v' :
  assignImage numToString m images v = Ok v' ->
  match featuredSrc v with
  | Some s => variant_image v' = Some s
  | None =>
      exists k, variant_id v = Some k /\
        match m !! toString numToString k with
        | Some o => variant_image v' = o
        | None => firstImage images v = Ok v'
        end
  end.
Proof.
  unfold assignImage. destruct (featuredSrc v) as [s|].
  - by intros [= <-].
  - destruct (variant_id v) as [k|]; [|done]. intros H. exists k.
    split; [done|]. destruct (m !! toString numToString k); [|done].
    by injection H as <-.
Qed.

Lemma assignImage_again m images v v' :
  assignImage numToString m images v = Ok v' ->
  assignImage numToString m images v' = Ok v'.
Proof.
  intros H.
  destruct (assignImage_frame _ _ _ _ H)
    as (Hid & _ & _ & _ & _ & _ & _ & _ & _ & _ & _ & Hfi).
  assert (Hf : featuredSrc v' = featuredSrc v).
  { unfold featuredSrc. by rewrite Hfi. }
  unfold assignImage in *. rewrite Hf, Hid.
  destruct (featuredSrc v) as [s|].
  - by injection H as <-.
  - destruct (variant_id v) as [k|]; [|done].
    destruct (m !! toString numToString k) as [o|].
    + by injection H as <-.
    + exact (firstImage_again _ _ _ H).
Qed.

(** A variant passes the callback exactly when it has a featured image
    source, or has an [id] and the fallback can read [images[0]]. *)
Lemma assignImage_ok_iff p v :
  (exists v',
     assignImage numToString (firstPass numToString p) (product_images p) v
       = Ok v') <->
  passes (product_images p) v.
Proof.
  unfold passes, assignImage. destruct (featuredSrc v) as [s|] eqn:Hf.
  - split; [|by eexists]. intros _. left. exists s. by apply featuredSrc_Some.
  - apply featuredSrc_None in Hf.
    destruct (variant_id v) as [k|].
    + destruct (firstPass numToString p !! toString numToString k)
        as [o|] eqn:Hm.
      * split; [|by eexists]. intros _. right. split; [by eexists|].
        unfold firstPass in Hm. unfold first_unreadable.
        by destruct (product_images p).
      * rewrite (firstImage_ok_iff (product_images p) v). split.
        -- intros H. right. split; [by eexists | done].
        -- intros [[s Hs]|[_ H]]; [by destruct (Hf s) | done].
    + split; [by intros [? ?]|].
      intros [[s Hs]|[[? ?] _]]; [by destruct (Hf s) | done].
Qed.

Lemma assignImage_all p l :
  Forall (passes (product_images p)) l ->
  exists ws,
    Forall2 (fun a b =>
      assignImage numToString (firstPass numToString p) (product_images p) a
        = Ok b) l ws.
Proof.
  induction 1 as [|v l Hv _ [ws IH]].
  - exists []. constructor.
  - apply assignImage_ok_iff in Hv as [w Hw].
    exists (w :: ws). by constructor.
Qed.

(** The cascade of [processVariantImages] in terms of the input alone. *)
Lemma assignImage_rules p v v' :
  assignImage numToString (firstPass numToString p) (product_images p) v
    = Ok v' ->
  process_rules numToString (product_images p) v v'.
Proof.
  intros H. apply assignImage_cascade in H.
  destruct (featuredSrc v) as [s0|] eqn:Hf.
  - split.
    + intros s Hs%featuredSrc_Some. congruence.
    + intros Hun%featuredSrc_None. congruence.
  - destruct H as (k & Hk & H). split.
    + intros s Hs%featuredSrc_Some. congruence.
    + intros _. exists k. split; [done|].
      pose proof (firstPass_last p (toString numToString k)) as Hlast.
      pose proof (firstPass_untagged p (toString numToString k)) as Hun.
      pose proof (firstPass_not_array p (toString numToString k)) as Hnot.
      unfold images_of in Hlast, Hun.
      destruct (product_images p) as [|imgs|o].
      * rewrite Hnot in H by done. by injection H as <-.
      * split.
        -- intros img Himg. by rewrite (Hlast img Himg) in H.
        -- intros Himgs. rewrite (Hun Himgs) in H.
           destruct imgs; by injection H as <-.
      * rewrite Hnot in H by done. cbn [firstImage] in H.
        destruct (na_length_positive o); [|by injection H as <-].
        destruct (na_first o) as [| |img0]; try done.
        injection H as <-. by exists img0.
Qed.

Lemma processVariantImages_returned p p' :
  processVariantImages numToString p = Returned p' ->
  Forall2 (fun a b =>
    assignImage numToString (firstPass numToString p) (product_images p) a
      = Ok b) (variants_of p) (variants_of p').
Proof.
  unfold processVariantImages, variants_of.
  destruct (product_variants p) as [vs|] eqn:Hvs.
  - destruct (forEachVariant _ vs) as [vs' [e|]] eqn:Hloop; [done|].
    intros [= <-]. cbn [set_variants product_variants default].
    by apply forEachVariant_completes.
  - intros [= <-]. rewrite Hvs. constructor.
Qed.

Lemma processVariantImages_rules p p' :
  processVariantImages numToString p = Returned p' ->
  Forall2 (process_rules numToString (product_images p))
    (variants_of p) (variants_of p').
Proof.
  intros H%processVariantImages_returned.
  eapply Forall2_impl; [exact H|]. intros v v' Hv. by apply assignImage_rules.
Qed.

(** A call that returns leaves the variants in place, unchanged but for
    the [image] the cascade gives them; a call can only throw when some
    variant does not pass. *)
Lemma processVariantImages_shape p :
  match processVariantImages numToString p with
  | Returned p' =>
      length (variants_of p') = length (variants_of p) /\
      Forall2 (fun v v' =>
        same_but_image v v' /\
        process_rules numToString (product_images p) v v')
        (variants_of p) (variants_of p')
  | Raised _ _ => ~ Forall (passes (product_images p)) (variants_of p)
  end.
Proof.
  destruct (processVariantImages numToString p) as [p'|e q] eqn:Hrun.
  - apply processVariantImages_returned in Hrun.
    split; [symmetry; by eapply Forall2_length|].
    eapply Forall2_impl; [exact Hrun|]. intros v v' Hv. cbn beta in Hv.
    split; [exact (assignImage_frame _ _ _ _ Hv) | by apply assignImage_rules].
  - intros Hall. unfold processVariantImages, variants_of in *.
    destruct (product_variants p) as [vs|]; [|done]. cbn [default] in Hall.
    destruct (assignImage_all p vs Hall) as [ws Hws].
    apply forEachVariant_completes in Hws. rewrite Hws in Hrun. done.
Qed.

End ProcessFacts.

(** ** The cascade *)

(** C1 (as amended): in a call that returns, the image of every variant is
    chosen by the first rule that applies: (a) the variant's own featured
    image source, (b) the URL the map holds for the variant's stringified
    id, (c) the first entry of the images list; when no rule applies,
    (d) [crawlCollection] gives [null], whereas [processVariantImages]
    assigns nothing and the variant keeps the [image] it had.
    [crawlCollection] selects normal forms, [processVariantImages] the
    URLs as they stand. The rules are spelled out in [crawl_rules] and
    [process_rules]. *)
Theorem cascade_priority
    (numToString : float -> string)
    (url_href : string -> string -> result string) (origin : string)
    (price : value) (p : product) :
  (forall out,
     crawlVariants numToString url_href origin price p = Ok out ->
     Forall2 (crawl_rules numToString url_href origin (images_of p))
       (variants_of p) out) /\
  (forall p',
     processVariantImages numToString p = Returned p' ->
     Forall2 (process_rules numToString (product_images p))
       (variants_of p) (variants_of p')).
Proof.
  split.
  - intros out. apply crawlVariants_rules.
  - intros p'. apply processVariantImages_rules.
Qed.

Lemma cascade_priority_witness :
  (Forall2
     (crawl_rules integer_toString origin_href scenario_origin
        (images_of cascade_product))
     (variants_of cascade_product)
     (returned
        (crawlVariants integer_toString origin_href scenario_origin VNull
           cascade_product)) /\
   r_image <$>
     returned
       (crawlVariants integer_toString origin_href scenario_origin VNull
          cascade_product) =
     [Some "https://cdn.shopify.com/s/files/f_2048x2048_.jpg";
      Some "https://cdn.shopify.com/s/files/b_2048x2048_.jpg";
      Some "https://cdn.shopify.com/s/files/a_2048x2048_.jpg"]) /\
  (Forall2
     (crawl_rules integer_toString origin_href scenario_origin
        (images_of no_images_product))
     (variants_of no_images_product)
     (returned
        (crawlVariants integer_toString origin_href scenario_origin VNull
           no_images_product)) /\
   r_image <$>
     returned
       (crawlVariants integer_toString origin_href scenario_origin VNull
          no_images_product) = [None]) /\
  (Forall2
     (process_rules integer_toString (product_images cascade_product))
     (variants_of cascade_product)
     (variants_of
        (state_of (processVariantImages integer_toString cascade_product))) /\
   variant_image <$>
     variants_of
       (state_of (processVariantImages integer_toString cascade_product)) =
     [Some "https://cdn.shopify.com/s/files/f_thumb_.jpg";
      Some "https://cdn.shopify.com/s/files/b_large_.jpg";
      Some "https://cdn.shopify.com/s/files/a_small_.jpg"]) /\
  (Forall2
     (process_rules integer_toString (product_images no_images_product))
     (variants_of no_images_product)
     (variants_of
        (state_of
           (processVariantImages integer_toString no_images_product))) /\
   variant_image <$>
     variants_of
       (state_of (processVariantImages integer_toString no_images_product)) =
     [None]).
Proof.
  destruct (cascade_priority integer_toString origin_href scenario_origin
              VNull cascade_product) as [Hcrawl Hprocess].
  destruct (cascade_priority integer_toString origin_href scenario_origin
              VNull no_images_product) as [Hcrawl0 Hprocess0].
  split; [|split; [|split]].
  - split; [apply Hcrawl|]; vm_compute; reflexivity.
  - split; [apply Hcrawl0|]; vm_compute; reflexivity.
  - split; [apply Hprocess|]; vm_compute; reflexivity.
  - split; [apply Hprocess0|]; vm_compute; reflexivity.
Defined.

(** C1, counterexample: a variant that carries an [image] already and to
    which no rule applies (no featured image, no image in the product)
    comes out of [processVariantImages] with that [image], not with
    [null]. *)
Lemma kept_image_not_null :
  images_of kept_image_product = [] /\
  Forall unfeatured (variants_of kept_image_product) /\
  exists p',
    processVariantImages integer_toString kept_image_product = Returned p' /\
    variant_image <$> variants_of p' = [Some "old.jpg"].
Proof.
  split; [reflexivity|]. split.
  - constructor; [|constructor]. intros s (fi & Hfi & _). discriminate.
  - eexists. split; reflexivity.
Qed.

(** ** The variant-image map *)



(** ** Normal form of the selected image *)

(** C3: the test that decides whether a URL is relative is
    [startsWith('http')], so the relative path [httpdocs/img/a.jpg] of a
    featured image is selected without being resolved, whatever the URL
    constructor would make of it: the image of the output variant is not
    an absolute URL. [makeAbsoluteUrl], which only resolves a path that
    starts with a slash, keeps it as well. *)
Theorem relative_http_source_kept
    (numToString : float -> string)
    (url_href : string -> string -> result string) (origin : string)
    (price : value) :
  (exists r,
     crawlVariants numToString url_href origin price relative_http_product
       = Ok [r] /\
     r_image r = Some "httpdocs/img/a.jpg") /\
  is_absolute "httpdocs/img/a.jpg" = false /\
  makeAbsoluteUrl url_href (Some "httpdocs/img/a.jpg") origin =
    Ok (Some "httpdocs/img/a.jpg").
Proof.
  split; [|by split]. eexists. split; reflexivity.
Qed.

(** ** Scenarios *)

(** C4: on a product whose only variant has neither an [id] nor a featured
    image, both resolvers throw a [TypeError] at [variant.id.toString()]
    instead of falling back to the first image. *)
Theorem missing_id_throws
    (numToString : float -> string)
    (url_href : string -> string -> result string) (origin : string)
    (price : value) :
  crawlVariants numToString url_href origin price missing_id_product =
    Throw (TypeError
      "Cannot read properties of undefined (reading 'toString')") /\
  processVariantImages numToString missing_id_product =
    Raised (TypeError
      "Cannot read properties of undefined (reading 'toString')")
      missing_id_product.
Proof. split; reflexivity. Qed.

(** C7 (as amended): in the scenario the host is not the Shopify CDN, so
    the size token stays: both variants get
    [https://shop.example/a_small_.jpg], variant 9 through the map and
    variant 10 through the first image. *)
Theorem scenario_resolution
    (numToString : float -> string)
    (url_href : string -> string -> result string) (price : value) :
  url_href "/a_small_.jpg" scenario_origin =
    Ok "https://shop.example/a_small_.jpg" ->
  exists m r9 r10,
    buildVariantImageMap numToString url_href scenario_origin
      scenario_product = Ok m /\
    m !! "9" = Some "https://shop.example/a_small_.jpg" /\
    m !! "10" = None /\
    crawlImages url_href scenario_origin scenario_product =
      Ok ["https://shop.example/a_small_.jpg"] /\
    crawlVariants numToString url_href scenario_origin price scenario_product =
      Ok [r9; r10] /\
    r_id r9 = Some (IdStr "9") /\
    r_image r9 = Some "https://shop.example/a_small_.jpg" /\
    r_id r10 = Some (IdStr "10") /\
    r_image r10 = Some "https://shop.example/a_small_.jpg".
Proof.
  intros H.
  assert (Hm : buildVariantImageMap numToString url_href scenario_origin
                 scenario_product
               = Ok {["9" := "https://shop.example/a_small_.jpg"]}).
  { unfold buildVariantImageMap, scenario_product. cbn.
    unfold fullImageUrl, absoluteUrl. cbn. rewrite H. reflexivity. }
  assert (Hi : crawlImages url_href scenario_origin scenario_product
               = Ok ["https://shop.example/a_small_.jpg"]).
  { unfold crawlImages, scenario_product. cbn.
    unfold fullImageUrl, absoluteUrl. cbn. rewrite H. reflexivity. }
  eexists _, _, _. split; [exact Hm|].
  split; [reflexivity|]. split; [reflexivity|]. split; [exact Hi|].
  unfold crawlVariants. rewrite Hi. cbn [bind].
  cbn [scenario_product bare_product product_variants].
  rewrite Hm. cbn [bind mapR].
  unfold resolveVariant, variantImageOf. cbn.
  repeat split; reflexivity.
Qed.

Lemma scenario_resolution_witness :
  exists m r9 r10,
    buildVariantImageMap integer_toString origin_href scenario_origin
      scenario_product = Ok m /\
    m !! "9" = Some "https://shop.example/a_small_.jpg" /\
    m !! "10" = None /\
    crawlImages origin_href scenario_origin scenario_product =
      Ok ["https://shop.example/a_small_.jpg"] /\
    crawlVariants integer_toString origin_href scenario_origin VNull
      scenario_product = Ok [r9; r10] /\
    r_id r9 = Some (IdStr "9") /\
    r_image r9 = Some "https://shop.example/a_small_.jpg" /\
    r_id r10 = Some (IdStr "10") /\
    r_image r10 = Some "https://shop.example/a_small_.jpg".
Proof.
  apply (scenario_resolution integer_toString origin_href VNull). reflexivity.
Defined.

(** C7, counterexample: with the scenario's input the resolver returns two
    variants whose image is not [https://shop.example/a_2048x2048_.jpg]. *)
Lemma scenario_not_rewritten :
  exists r9 r10,
    crawlVariants integer_toString origin_href scenario_origin VNull
      scenario_product = Ok [r9; r10] /\
    r_image r9 <> Some "https://shop.example/a_2048x2048_.jpg" /\
    r_image r10 <> Some "https://shop.example/a_2048x2048_.jpg".
Proof. eexists _, _. split; [reflexivity|]. split; discriminate. Qed.

(** ** Price normalisation *)

(** C5 (as amended): for every number [x], [normalizePrice] returns
    [x / 100] when [x] exceeds 10000, [x] itself when it does not and [x] is
    truthy, and [null] when [x] is [0] or [NaN]; the inline heuristic of
    [crawlCollection] divides above 10000 and keeps every other number.
    12999 gives 129.99 and 45 gives 45. *)
#[warnings="-inexact-float"]
Theorem normalizePrice_numeric (x : float) :
  normalizePrice (VNum x) =
    (if (10000 <? x)%float then VNum (x / 100)%float
     else if num_truthy x then VNum x else VNull) /\
  centsHeuristic (VNum x) =
    (if (10000 <? x)%float then VNum (x / 100)%float else VNum x) /\
  normalizePrice (VNum 12999) = VNum 129.99 /\
  normalizePrice (VNum 45) = VNum 45.
Proof.
  split; [|by repeat split].
  unfold normalizePrice. cbn [ToBoolean ToNumber].
  destruct (10000 <? x)%float eqn:Hgt.
  - by rewrite (gt_10000_truthy x Hgt).
  - by destruct (num_truthy x).
Qed.

(** C5, counterexample: the price [0] does not exceed 10000, and
    [normalizePrice] does not return it unchanged. *)
Lemma normalizePrice_zero_changed :
  normalizePrice (VNum 0) <>
    (if (10000 <? 0)%float then VNum (0 / 100)%float else VNum 0).
Proof. vm_compute. discriminate. Qed.

(** C10: [normalizePrice] maps [0], [-0], [null], [undefined] and [NaN]
    to [null], as it does every falsy input, and returns the boundary value
    10000 unchanged. *)
Theorem normalizePrice_falsy :
  normalizePrice (VNum 0) = VNull /\
  normalizePrice (VNum (-0)) = VNull /\
  normalizePrice VNull = VNull /\
  normalizePrice VUndefined = VNull /\
  normalizePrice (VNum nan) = VNull /\
  normalizePrice (VNum 10000) = VNum 10000 /\
  (forall v, ToBoolean v = false -> normalizePrice v = VNull).
Proof.
  repeat split; try reflexivity.
  intros v Hv. unfold normalizePrice. by rewrite Hv.
Qed.

(** ** The high-resolution rewrite *)

(** C6 (as amended): the rewrite replaces the leftmost size-suffix token
    only, so rewriting twice equals rewriting once exactly when the
    rewritten URL holds no further size-suffix token (or no longer contains
    the CDN host); the same holds for [getHighResImage]. *)
Theorem highRes_idempotent_iff (u : string) :
  (highRes (highRes u) = highRes u <->
   includes (highRes u) cdn_host && has_size_token (highRes u) = false) /\
  (getHighResImage (getHighResImage (Some u)) = getHighResImage (Some u) <->
   includes (highRes u) cdn_host && has_size_token (highRes u) = false).
Proof.
  assert (Hi : highRes (highRes u) = highRes u <->
    includes (highRes u) cdn_host && has_size_token (highRes u) = false).
  { unfold highRes at 1.
    destruct (includes (highRes u) cdn_host); cbn [andb].
    - apply replace_fixed_iff.
    - by split. }
  split; [exact Hi|].
  cbn [getHighResImage]. destruct (str_truthy u) eqn:Hu; cbn [negb].
  - cbn [getHighResImage]. rewrite (highRes_nonempty u Hu). cbn [negb].
    rewrite <- Hi. split; [by intros [= ->] | by intros ->].
  - destruct u; [|done]. by split.
Qed.

(** C6, counterexample: a CDN URL with two size-suffix tokens. Its
    rewritten form holds the token [_2048x2048_] and a second application
    still changes it. *)
Lemma highRes_twice_differs :
  includes (highRes two_token_url) cdn_host = true /\
  includes (highRes two_token_url) high_res_token = true /\
  highRes (highRes two_token_url) <> highRes two_token_url.
Proof. repeat split; [vm_compute; discriminate]. Qed.

(** ** Shape of the output *)

(** C8 (as amended): a call that returns keeps the variants in number and
    in order. [crawlCollection] builds one object per variant, from the
    variant at the same position, and every object carries an [image], a
    URL or [null], as the cascade gives it; [processVariantImages] leaves
    every variant in place, unchanged but for its [image], which it assigns
    only where a rule of the cascade applies. A call throws only on an
    input that is not well formed, respectively when some variant does not
    pass. *)
Theorem output_follows_input
    (numToString : float -> string)
    (url_href : string -> string -> result string) (origin : string)
    (price : value) (p : product) :
  match crawlVariants numToString url_href origin price p with
  | Ok out =>
      length out = length (variants_of p) /\
      Forall2 (fun v r =>
        built_from v r /\
        crawl_rules numToString url_href origin (images_of p) v r)
        (variants_of p) out
  | Throw _ => ~ well_formed url_href origin p
  end /\
  match processVariantImages numToString p with
  | Returned p' =>
      length (variants_of p') = length (variants_of p) /\
      Forall2 (fun v v' =>
        same_but_image v v' /\
        process_rules numToString (product_images p) v v')
        (variants_of p) (variants_of p')
  | Raised _ _ => ~ Forall (passes (product_images p)) (variants_of p)
  end.
Proof.
  split.
  - apply crawlVariants_shape.
  - apply processVariantImages_shape.
Qed.

(** C8, counterexample: [processVariantImages] returns the product
    without images as it got it. No rule applies to its variant, and no
    [image] has been assigned to it ([variant_image] is [None]: the
    property is missing). *)
Lemma no_rule_no_image :
  processVariantImages integer_toString no_images_product =
    Returned no_images_product /\
  variant_image <$> variants_of no_images_product = [None].
Proof. split; reflexivity. Qed.

(** The scenario's product is well formed. *)
Lemma scenario_well_formed :
  well_formed origin_href scenario_origin scenario_product.
Proof.
  split; [|split].
  - intros s _. right. unfold origin_href.
    destruct (is_absolute s); [by eexists|].
    destruct (startsWith s "//"); [by eexists|].
    destruct (startsWith s "/"); by eexists.
  - intros o Hin _. cbn in Hin.
    apply elem_of_cons in Hin as [[= ->]|Hin]; [by eexists|].
    by apply elem_of_nil in Hin.
  - intros v Hin _. cbn in Hin.
    repeat (apply elem_of_cons in Hin as [->|Hin]; [by eexists|]).
    by apply elem_of_nil in Hin.
Qed.

(** ** [processVariantImages] writes [image] only *)

(** C9: whether it returns or throws, [processVariantImages] leaves the
    product with the same title, handle and images list, and with the same
    variants in the same order, each differing from the input variant in
    its [image] field at most. *)
Theorem processVariantImages_frame
    (numToString : float -> string) (p : product) :
  let p' := state_of (processVariantImages numToString p) in
  product_title p' = product_title p /\
  product_handle p' = product_handle p /\
  product_images p' = product_images p /\
  (product_variants p = None <-> product_variants p' = None) /\
  length (variants_of p') = length (variants_of p) /\
  Forall2 same_but_image (variants_of p) (variants_of p').
Proof.
  unfold processVariantImages, variants_of.
  destruct (product_variants p) as [vs|] eqn:Hvs; cbn [default].
  - pose proof (forEachVariant_frame
      (assignImage numToString (firstPass numToString p) (product_images p))
      vs (assignImage_frame numToString _ _)) as HF.
    destruct (forEachVariant _ vs) as [vs' [e|]]; cbn [fst] in HF;
      cbn [state_of set_variants product_title product_handle product_images
           product_variants default];
      (repeat split; [done | done | symmetry; by eapply Forall2_length | done]).
  - cbn [state_of]. rewrite Hvs. cbn [default]. repeat split; constructor.
Qed.

(** * Further properties *)

(** ** [processVariantImages] run twice *)

(** X1: running [processVariantImages] on what a first run left behind
    changes nothing more: it ends the same way (returns, or throws the same
    error) with the same product. *)
Theorem processVariantImages_idempotent
    (numToString : float -> string) (p : product) :
  processVariantImages numToString
    (state_of (processVariantImages numToString p)) =
  processVariantImages numToString p.
Proof.
  remember (processVariantImages numToString p) as o eqn:Ho.
  unfold processVariantImages in Ho.
  destruct (product_variants p) as [vs|] eqn:Hvs.
  - pose proof (forEachVariant_again
      (assignImage numToString (firstPass numToString p) (product_images p))
      vs (assignImage_again numToString _ _)) as Hagain.
    destruct (forEachVariant _ vs) as [vs' e] eqn:Hrun. cbn [fst] in Hagain.
    assert (Hstate : processVariantImages numToString (set_variants p vs')
                     = o).
    { unfold processVariantImages.
      cbn [set_variants product_variants product_images].
      change (firstPass numToString (set_variants p vs'))
        with (firstPass numToString p).
      rewrite Hagain. by destruct e. }
    by destruct e; subst o.
  - subst o. cbn [state_of]. unfold processVariantImages. by rewrite Hvs.
Qed.

(** ** When [processVariantImages] throws *)

(** X2: [processVariantImages] returns exactly when every variant has a
    featured image source, or has an [id] while the fallback can read
    [images[0]]; otherwise it throws. *)
Theorem processVariantImages_returns_iff
    (numToString : float -> string) (p : product) :
  (exists p', processVariantImages numToString p = Returned p') <->
  Forall (passes (product_images p)) (variants_of p).
Proof.
  unfold processVariantImages, variants_of.
  destruct (product_variants p) as [vs|]; cbn [default].
  2:{ split; [constructor | by eexists]. }
  set (f := assignImage numToString (firstPass numToString p)
              (product_images p)).
  destruct (forEachVariant f vs) as [vs' [e|]] eqn:Hrun.
  - split; [by intros [p' ?]|]. intros Hall. exfalso.
    destruct (assignImage_all numToString p vs Hall) as [ws Hws].
    apply forEachVariant_completes in Hws. subst f. congruence.
  - split; [|by eexists]. intros _.
    apply forEachVariant_completes in Hrun.
    induction Hrun as [|a b l l' Hab _ IH]; constructor; [|done].
    apply (assignImage_ok_iff numToString p). by exists b.
Qed.

(** X3: when the first variant that has neither a featured image source
    nor an [id] is met, [processVariantImages] throws a [TypeError]; the
    variants before it have the image the cascade gives them and are
    otherwise unchanged, and the variants from it on are left as they
    were. *)
Theorem processVariantImages_throw_state
    (numToString : float -> string)
    (p : product) (done rest : list variant) (v : variant) :
  product_variants p = Some (done ++ v :: rest)%list ->
  Forall (passes (product_images p)) done ->
  unfeatured v ->
  variant_id v = None ->
  exists done',
    processVariantImages numToString p =
      Raised
        (TypeError "Cannot read properties of undefined (reading 'toString')")
        (set_variants p (done' ++ v :: rest)%list) /\
    Forall2 (process_rules numToString (product_images p)) done done' /\
    Forall2 same_but_image done done'.
Proof.
  intros Hvs Hdone Hf%featuredSrc_None Hid.
  set (f := assignImage numToString (firstPass numToString p)
              (product_images p)).
  destruct (assignImage_all numToString p done Hdone) as [done' Hdone'].
  exists done'. split; [|split].
  - unfold processVariantImages. rewrite Hvs. fold f.
    rewrite (forEachVariant_stops f done v rest
      (TypeError "Cannot read properties of undefined (reading 'toString')")
      done' Hdone'); [done|].
    unfold f, assignImage. by rewrite Hf, Hid.
  - eapply Forall2_impl; [exact Hdone'|]. intros a b Hab. cbn beta in Hab.
    exact (assignImage_rules numToString _ _ _ Hab).
  - eapply Forall2_impl; [exact Hdone'|]. intros a b Hab. cbn beta in Hab.
    exact (assignImage_frame numToString _ _ _ _ Hab).
Qed.

Lemma processVariantImages_throw_state_witness :
  exists done',
    processVariantImages integer_toString
      (bare_product []
         [bare_variant (Some (IdNum 1)) (Some {| fi_src := Some "/f.jpg" |});
          bare_variant None None;
          bare_variant (Some (IdNum 2)) None]) =
      Raised
        (TypeError "Cannot read properties of undefined (reading 'toString')")
        (set_variants
           (bare_product []
              [bare_variant (Some (IdNum 1))
                 (Some {| fi_src := Some "/f.jpg" |});
               bare_variant None None;
               bare_variant (Some (IdNum 2)) None])
           (done' ++ bare_variant None None ::
              [bare_variant (Some (IdNum 2)) None])%list) /\
    Forall2 (process_rules integer_toString (ImagesArray []))
      [bare_variant (Some (IdNum 1)) (Some {| fi_src := Some "/f.jpg" |})]
      done' /\
    Forall2 same_but_image
      [bare_variant (Some (IdNum 1)) (Some {| fi_src := Some "/f.jpg" |})]
      done'.
Proof.
  apply (processVariantImages_throw_state integer_toString
           (bare_product []
              [bare_variant (Some (IdNum 1))
                 (Some {| fi_src := Some "/f.jpg" |});
               bare_variant None None;
               bare_variant (Some (IdNum 2)) None])
           [bare_variant (Some (IdNum 1))
              (Some {| fi_src := Some "/f.jpg" |})]
           [bare_variant (Some (IdNum 2)) None]
           (bare_variant None None)).
  - reflexivity.
  - constructor; [|constructor]. left. exists "/f.jpg". by eexists.
  - intros s (fi & Hfi & _). discriminate.
  - reflexivity.
Defined.

(** ** The last image wins in [processVariantImages] *)

(** X4: in [processVariantImages] a variant without a featured image whose
    stringified id is listed by some image gets the [src] of the last
    image that lists it, as it stands in the JSON (not normalised). *)
Theorem processVariantImages_last_image
    (numToString : float -> string)
    (p p' : product) (img : image) (key : string) (i : nat) (v : variant) :
  last_tagged numToString key (images_of p) img ->
  processVariantImages numToString p = Returned p' ->
  variants_of p !! i = Some v ->
  unfeatured v ->
  toString numToString <$> variant_id v = Some key ->
  exists v', variants_of p' !! i = Some v' /\ variant_image v' = srcOf img.
Proof.
  intros Hlast Hrun Hv Hf Hid.
  apply processVariantImages_rules in Hrun.
  destruct (Forall2_lookup_l _ _ _ _ _ Hrun Hv) as (v' & Hv' & [_ Hrule]).
  exists v'. split; [done|].
  destruct (Hrule Hf) as (k & Hk & Hcase). rewrite Hk in Hid.
  injection Hid as <-. unfold images_of in Hlast.
  destruct (product_images p) as [|imgs|o].
  - destruct Hlast as (pre & post & Himgs & _). by destruct pre.
  - destruct Hcase as [Hcase _]. by apply Hcase.
  - destruct Hlast as (pre & post & Himgs & _). by destruct pre.
Qed.

Lemma processVariantImages_last_image_witness :
  exists v',
    variants_of
      (state_of (processVariantImages integer_toString two_images_product))
      !! 0 = Some v' /\
    variant_image v' =
      srcOf
        (ImgObj
           {| img_src := Some "https://cdn.shopify.com/s/files/b_large_.jpg";
              img_variant_ids := Some [IdNum 7] |}).
Proof.
  apply (processVariantImages_last_image integer_toString two_images_product
           (state_of (processVariantImages integer_toString two_images_product))
           _ "7" 0 (bare_variant (Some (IdStr "7")) None)).
  - exists [ImgObj
              {| img_src :=
                   Some "https://cdn.shopify.com/s/files/a_small_.jpg";
                 img_variant_ids := Some [IdNum 7; IdNum 8] |}], [].
    split; [reflexivity|]. split; [reflexivity | constructor].
  - vm_compute. reflexivity.
  - reflexivity.
  - intros s (fi & Hfi & _). discriminate.
  - reflexivity.
Defined.

(** ** [extractCollectionHandle] *)

Lemma append_cons c (a b : string) : String c a +:+ b = String c (a +:+ b).
Proof. reflexivity. Qed.

Lemma append_assoc_str (a b c : string) : (a +:+ b) +:+ c = a +:+ (b +:+ c).
Proof. induction a as [|x a IH]; [done|]. by rewrite !append_cons, IH. Qed.

Lemma strip_prefix_append p b : strip_prefix p (p +:+ b) = Some b.
Proof.
  induction p as [|c p IH]; [done|]. rewrite append_cons.
  cbn [strip_prefix]. by rewrite Ascii.eqb_refl.
Qed.

Lemma startsWith_nil s : startsWith s "" = true.
Proof. by destruct s. Qed.

Lemma startsWith_slash c s :
  startsWith (String c s) "/" = Ascii.eqb c "/".
Proof.
  cbn [startsWith]. rewrite startsWith_nil, andb_true_r.
  apply Ascii.eqb_sym.
Qed.

Lemma take_segment_split s :
  exists b, s = take_segment s +:+ b /\ (b = "" \/ startsWith b "/" = true).
Proof.
  induction s as [|c s (b & Hs & Hb)]; cbn [take_segment].
  - exists "". by split; [|left].
  - destruct (Ascii.eqb_spec c "/") as [->|Hc].
    + exists (String "/" s). split; [done | right; by rewrite startsWith_slash].
    + exists b. split; [by rewrite append_cons, <- Hs | done].
Qed.

Lemma take_segment_no_slash s : no_slash (take_segment s) = true.
Proof.
  induction s as [|c s IH]; [done|]. cbn [take_segment].
  destruct (Ascii.eqb c "/") eqn:Hc; [done|]. cbn [no_slash]. by rewrite Hc.
Qed.

Lemma take_segment_empty s :
  take_segment s = "" <-> s = "" \/ startsWith s "/" = true.
Proof.
  destruct s as [|c s]; [split; [by left | done]|].
  rewrite startsWith_slash. cbn [take_segment].
  destruct (Ascii.eqb c "/").
  - split; [by right | done].
  - split; [done | by intros [?|?]].
Qed.

(** X5: a handle [extractCollectionHandle] returns is not empty, holds no
    slash, and stands in the URL right after [/collections/], up to the
    next slash or the end of the URL. *)
Theorem extractCollectionHandle_sound (url h : string) :
  extractCollectionHandle url = Some h ->
  str_truthy h = true /\
  no_slash h = true /\
  exists a b,
    url = a +:+ "/collections/" +:+ h +:+ b /\
    (b = "" \/ startsWith b "/" = true).
Proof.
  induction url as [|c rest IH]; [done|].
  cbn [extractCollectionHandle].
  assert (Hrest : extractCollectionHandle rest = Some h ->
    str_truthy h = true /\ no_slash h = true /\
    exists a b,
      String c rest = a +:+ "/collections/" +:+ h +:+ b /\
      (b = "" \/ startsWith b "/" = true)).
  { intros H. destruct (IH H) as (Ht & Hn & a & b & -> & Hb).
    split; [done|]. split; [done|]. exists (String c a), b.
    by rewrite append_cons. }
  destruct (strip_prefix "/collections/" (String c rest)) as [r|] eqn:Hr;
    [|exact Hrest].
  destruct (str_truthy (take_segment r)) eqn:Hseg; [|exact Hrest].
  intros [= <-]. split; [done|]. split; [apply take_segment_no_slash|].
  destruct (take_segment_split r) as (b & Hsplit & Hb).
  exists "", b. split; [|done].
  apply strip_prefix_Some in Hr. rewrite Hr.
  change ("" +:+ "/collections/" +:+ take_segment r +:+ b)
    with ("/collections/" +:+ take_segment r +:+ b).
  by rewrite <- Hsplit.
Qed.

Lemma extractCollectionHandle_sound_witness :
  str_truthy "shoes" = true /\
  no_slash "shoes" = true /\
  exists a b,
    "https://shop.example/collections/shoes/products/boot" =
      a +:+ "/collections/" +:+ "shoes" +:+ b /\
    (b = "" \/ startsWith b "/" = true).
Proof.
  apply (extractCollectionHandle_sound
           "https://shop.example/collections/shoes/products/boot" "shoes").
  vm_compute. reflexivity.
Defined.

(** X6: [extractCollectionHandle] returns [null] exactly when no
    occurrence of [/collections/] in the URL is followed by a character
    other than a slash. *)
Theorem extractCollectionHandle_None_iff (url : string) :
  extractCollectionHandle url = None <->
  forall a b, url = a +:+ "/collections/" +:+ b -> take_segment b = "".
Proof.
  induction url as [|c rest IH].
  - split; [|done]. intros _ [|x a] b H; [|by rewrite append_cons in H].
    change ("" +:+ "/collections/" +:+ b)
      with (String "/" ("collections/" +:+ b)) in H. discriminate.
  - cbn [extractCollectionHandle]. split.
    + intros H [|x a] b Hab.
      * change ("" +:+ "/collections/" +:+ b)
          with ("/collections/" +:+ b) in Hab.
        rewrite Hab in H. rewrite strip_prefix_append in H.
        destruct (take_segment b) eqn:Hb; [done|]. cbn in H. discriminate.
      * rewrite append_cons in Hab. injection Hab as -> ->.
        refine (proj1 IH _ a b eq_refl).
        destruct (strip_prefix _ _); [|done].
        by destruct (str_truthy _).
    + intros H.
      assert (Hrest : extractCollectionHandle rest = None).
      { apply IH. intros a b ->. apply (H (String c a) b).
        by rewrite append_cons. }
      destruct (strip_prefix "/collections/" (String c rest)) as [r|] eqn:Hr;
        [|done].
      apply strip_prefix_Some in Hr.
      rewrite (H "" r Hr). done.
Qed.

Lemma strip_prefix_within p x y :
  String.length p <= String.length x ->
  strip_prefix p (x +:+ y) = (fun r => r +:+ y) <$> strip_prefix p x.
Proof.
  revert x. induction p as [|c p IH]; intros x; [done|].
  destruct x as [|d x]; cbn [String.length]; [lia|]. intros Hlen.
  rewrite append_cons. cbn [strip_prefix].
  destruct (Ascii.eqb c d); [|done]. apply IH. lia.
Qed.

Lemma length_append_str (a b : string) :
  String.length (a +:+ b) = String.length a + String.length b.
Proof.
  induction a as [|c a IH]; [done|]. rewrite append_cons.
  cbn [String.length]. by rewrite IH.
Qed.

(** X7: when nothing can be read after [/collections/] from [p] itself,
    the handle of [p/collections/t] is the text of [t] up to its first
    slash (so a query string that follows the handle is part of it). *)
Theorem extractCollectionHandle_first (p t : string) :
  extractCollectionHandle (p +:+ "/collections/") = None ->
  str_truthy (take_segment t) = true ->
  extractCollectionHandle (p +:+ "/collections/" +:+ t) =
    Some (take_segment t).
Proof.
  intros Hp Ht. induction p as [|c p IH].
  - change ("" +:+ "/collections/" +:+ t)
      with (String "/" ("collections/" +:+ t)).
    cbn [extractCollectionHandle].
    change (String "/" ("collections/" +:+ t)) with ("/collections/" +:+ t).
    by rewrite strip_prefix_append, Ht.
  - rewrite append_cons in Hp. rewrite append_cons.
    cbn [extractCollectionHandle] in *.
    rewrite <- !append_cons in *. rewrite <- append_assoc_str.
    rewrite strip_prefix_within
      by (rewrite length_append_str; cbn; lia).
    destruct (strip_prefix "/collections/" (String c p +:+ "/collections/"))
      as [r0|] eqn:Hr0; cbn [fmap option_fmap option_map].
    + destruct (str_truthy (take_segment r0)) eqn:Hseg; [done|].
      assert (Hr0s : startsWith r0 "/" = true).
      { destruct r0 as [|x r0].
        - apply strip_prefix_Some in Hr0.
          apply (f_equal String.length) in Hr0.
          rewrite !length_append_str in Hr0. cbn in Hr0. lia.
        - cbn [take_segment str_truthy] in Hseg. rewrite startsWith_slash.
          by destruct (Ascii.eqb x "/"). }
      assert (Hseg' : take_segment (r0 +:+ t) = "").
      { apply take_segment_empty. right.
        destruct r0 as [|x r0]; [done|]. rewrite append_cons.
        by rewrite startsWith_slash in *. }
      rewrite Hseg'. cbn [str_truthy]. by apply IH.
    + by apply IH.
Qed.

Lemma extractCollectionHandle_first_witness :
  extractCollectionHandle
    ("https://shop.example" +:+ "/collections/" +:+ "shoes?page=2") =
    Some (take_segment "shoes?page=2").
Proof.
  apply (extractCollectionHandle_first "https://shop.example" "shoes?page=2");
    vm_compute; reflexivity.
Defined.

(** ** [safeNavigate] *)

Section SafeNavigateFacts.

Variable response : Type.
Variable goto : nat -> response + string.
Variable body_ready : nat -> bool.
Variable argv : nav_argv.
Variable url : string.
Variable options : nav_options.

Local Abbreviation retries := (nav_retries argv options).
Local Abbreviation loop :=
  (nav_loop response goto body_ready argv url options).

Lemma nav_loop_fail left a lastError m :
  goto a = inr m ->
  loop (S left) a lastError =
    (Goto url (nav_timeout argv options) (nav_waitUntil options) ::
     LogFailed url a retries m ::
     (if (a <? retries)%nat
      then [LogWaiting (2000 * a); Sleep (2000 * a)]
      else []) ++
     (loop left (S a) (Some m)).1,
     (loop left (S a) (Some m)).2).
Proof.
  intros Hm. cbn [nav_loop]. rewrite Hm.
  by destruct (nav_loop _ _ _ _ _ _ left (S a) (Some m)).
Qed.

(** Attempts [S a], ..., [a + S f] all fail, [a + S f] being the last one
    allowed. *)
Lemma nav_loop_all_fail f a lastError :
  retries = a + S f ->
  (forall k, S a <= k <= a + S f -> exists m, goto k = inr m) ->
  exists m,
    goto (a + S f) = inr m /\
    (loop (S f) (S a) lastError).2 =
      inr (nav_give_up argv url options (Some m)) /\
    gotos (loop (S f) (S a) lastError).1 = S f /\
    backoff (loop (S f) (S a) lastError).1 + 1000 * S a * a =
      1000 * (a + S f) * (a + f).
Proof.
  revert a lastError. induction f as [|f IH]; intros a lastError Hn Hfail.
  - destruct (Hfail (S a)) as [m Hm]; [lia|].
    exists m. replace (a + 1) with (S a) by lia.
    split; [done|]. rewrite (nav_loop_fail _ _ _ _ Hm). cbn [nav_loop].
    rewrite Hn. replace (S a <? a + 1)%nat with false
      by (symmetry; apply Nat.ltb_ge; lia).
    cbn [app fst snd gotos backoff]. split; [done|]. split; [done|]. lia.
  - destruct (Hfail (S a)) as [m Hm]; [lia|].
    destruct (IH (S a) (Some m)) as (m' & Hlast & Hout & Hgotos & Hback).
    { lia. }
    { intros k Hk. apply Hfail. lia. }
    exists m'. replace (a + S (S f)) with (S a + S f) by lia.
    split; [done|]. rewrite (nav_loop_fail _ _ _ _ Hm).
    destruct (loop (S f) (S (S a)) (Some m)) as [events outcome].
    cbn [fst snd] in *. rewrite Hn.
    replace (S a <? a + S (S f))%nat with true
      by (symmetry; apply Nat.ltb_lt; lia).
    cbn [app gotos backoff]. split; [done|]. split; [lia|]. nia.
Qed.

(** Attempts [a], ..., [a + j - 1] fail and attempt [a + j] succeeds. *)
Lemma nav_loop_first_success j a left lastError r :
  j < left ->
  a + j <= retries ->
  (forall i, a <= i < a + j -> exists m, goto i = inr m) ->
  goto (a + j) = inl r ->
  (loop left a lastError).2 = inl r /\
  gotos (loop left a lastError).1 = S j /\
  backoff (loop left a lastError).1 + 1000 * j = 1000 * j * (2 * a + j).
Proof.
  revert a left lastError.
  induction j as [|j IH]; intros a left lastError Hleft Hle Hfail Hok.
  - destruct left as [|left]; [lia|]. cbn [nav_loop].
    replace (a + 0) with a in Hok by lia. rewrite Hok. cbn [fst snd].
    split; [done|].
    destruct (1 <? a)%nat, (body_ready a); cbn [app gotos backoff]; lia.
  - destruct left as [|left]; [lia|].
    destruct (Hfail a) as [m Hm]; [lia|]. rewrite (nav_loop_fail _ _ _ _ Hm).
    destruct (IH (S a) left (Some m)) as (Hout & Hgotos & Hback).
    { lia. }
    { lia. }
    { intros i Hi. apply Hfail. lia. }
    { by replace (S a + j) with (a + S j) by lia. }
    destruct (loop left (S a) (Some m)) as [events outcome].
    cbn [fst snd] in *.
    replace (a <? retries)%nat with true
      by (symmetry; apply Nat.ltb_lt; lia).
    cbn [app gotos backoff]. split; [done|]. split; [lia|]. nia.
Qed.

End SafeNavigateFacts.

(** X8: when every attempt fails, [safeNavigate] asks for the page
    [retries] times, waits [2000 * attempt] ms after every failed attempt
    but the last ([1000 * retries * (retries - 1)] ms in all) and throws
    an [Error] that carries the message of the last failure; with
    [retries] equal to [0] it never asks for the page and throws a
    [TypeError] instead. *)
Theorem safeNavigate_all_fail
    (response : Type) (goto : nat -> response + string)
    (body_ready : nat -> bool) (argv : nav_argv) (url : string)
    (options : nav_options) :
  (forall k, 1 <= k <= nav_retries argv options ->
     exists m, goto k = inr m) ->
  match nav_retries argv options with
  | 0 =>
      safeNavigate response goto body_ready argv url options =
        ([], inr (NavTypeError
                    "Cannot read properties of undefined (reading 'message')"))
  | S n =>
      exists m,
        goto (S n) = inr m /\
        (safeNavigate response goto body_ready argv url options).2 =
          inr (NavError ("Failed to navigate to " +:+ url +:+ " after " +:+
                         pretty (S n) +:+ " attempts: " +:+ m)) /\
        gotos (safeNavigate response goto body_ready argv url options).1
          = S n /\
        backoff (safeNavigate response goto body_ready argv url options).1
          = 1000 * S n * n
  end.
Proof.
  intros Hfail. unfold safeNavigate.
  destruct (nav_retries argv options) as [|n] eqn:Hn; [done|].
  destruct (nav_loop_all_fail response goto body_ready argv url options
              n 0 None) as (m & Hm & Hout & Hgotos & Hback).
  { by rewrite Hn. }
  { intros k Hk. apply Hfail. lia. }
  exists m. cbn [plus] in *. split; [done|].
  split; [rewrite Hout; unfold nav_give_up; by rewrite Hn|].
  split; [done | lia].
Qed.

Lemma safeNavigate_all_fail_witness :
  exists m,
    (fun _ : nat => inr "net::ERR_TIMED_OUT" : unit + string) 3 = inr m /\
    (safeNavigate unit (fun _ => inr "net::ERR_TIMED_OUT") (fun _ => true)
       {| argv_retries := 3; argv_timeout := 3000; argv_wait_time := 2000 |}
       "https://shop.example/collections/shoes"
       {| opt_retries := None; opt_timeout := None;
          opt_waitUntil := None |}).2 =
      inr (NavError
             ("Failed to navigate to " +:+
              "https://shop.example/collections/shoes" +:+ " after " +:+
              pretty 3 +:+ " attempts: " +:+ m)) /\
    gotos
      (safeNavigate unit (fun _ => inr "net::ERR_TIMED_OUT") (fun _ => true)
         {| argv_retries := 3; argv_timeout := 3000;
            argv_wait_time := 2000 |}
         "https://shop.example/collections/shoes"
         {| opt_retries := None; opt_timeout := None;
            opt_waitUntil := None |}).1 = 3 /\
    backoff
      (safeNavigate unit (fun _ => inr "net::ERR_TIMED_OUT") (fun _ => true)
         {| argv_retries := 3; argv_timeout := 3000;
            argv_wait_time := 2000 |}
         "https://shop.example/collections/shoes"
         {| opt_retries := None; opt_timeout := None;
            opt_waitUntil := None |}).1 = 1000 * 3 * 2.
Proof.
  apply (safeNavigate_all_fail unit (fun _ => inr "net::ERR_TIMED_OUT")
           (fun _ => true)
           {| argv_retries := 3; argv_timeout := 3000;
              argv_wait_time := 2000 |}
           "https://shop.example/collections/shoes"
           {| opt_retries := None; opt_timeout := None;
              opt_waitUntil := None |}).
  intros k _. by eexists.
Defined.

(** X9: when attempt [k] is the first that succeeds ([k] at most
    [retries]), [safeNavigate] returns its response after exactly [k]
    requests and [1000 * k * (k - 1)] ms of back-off. *)
Theorem safeNavigate_first_success
    (response : Type) (goto : nat -> response + string)
    (body_ready : nat -> bool) (argv : nav_argv) (url : string)
    (options : nav_options) (k : nat) (r : response) :
  1 <= k <= nav_retries argv options ->
  (forall i, 1 <= i < k -> exists m, goto i = inr m) ->
  goto k = inl r ->
  (safeNavigate response goto body_ready argv url options).2 = inl r /\
  gotos (safeNavigate response goto body_ready argv url options).1 = k /\
  backoff (safeNavigate response goto body_ready argv url options).1 =
    1000 * k * (k - 1).
Proof.
  intros Hk Hfail Hok. unfold safeNavigate.
  destruct k as [|j]; [lia|].
  destruct (nav_loop_first_success response goto body_ready argv url options
              j 1 (nav_retries argv options) None r)
    as (Hout & Hgotos & Hback); [lia | lia | | done |].
  { intros i Hi. apply Hfail. lia. }
  split; [done|]. split; [done|]. replace (S j - 1) with j by lia. nia.
Qed.

Lemma safeNavigate_first_success_witness :
  (safeNavigate string
     (fun i => if (i <? 3)%nat then inr "net::ERR_TIMED_OUT" else inl "200")
     (fun _ => true)
     {| argv_retries := 3; argv_timeout := 3000; argv_wait_time := 2000 |}
     "https://shop.example/collections/shoes"
     {| opt_retries := Some 5; opt_timeout := None;
        opt_waitUntil := None |}).2 = inl "200" /\
  gotos
    (safeNavigate string
       (fun i => if (i <? 3)%nat then inr "net::ERR_TIMED_OUT" else inl "200")
       (fun _ => true)
       {| argv_retries := 3; argv_timeout := 3000; argv_wait_time := 2000 |}
       "https://shop.example/collections/shoes"
       {| opt_retries := Some 5; opt_timeout := None;
          opt_waitUntil := None |}).1 = 3 /\
  backoff
    (safeNavigate string
       (fun i => if (i <? 3)%nat then inr "net::ERR_TIMED_OUT" else inl "200")
       (fun _ => true)
       {| argv_retries := 3; argv_timeout := 3000; argv_wait_time := 2000 |}
       "https://shop.example/collections/shoes"
       {| opt_retries := Some 5; opt_timeout := None;
          opt_waitUntil := None |}).1 = 1000 * 3 * (3 - 1).
Proof.
  apply (safeNavigate_first_success string
           (fun i =>
              if (i <? 3)%nat then inr "net::ERR_TIMED_OUT" else inl "200")
           (fun _ => true)
           {| argv_retries := 3; argv_timeout := 3000;
              argv_wait_time := 2000 |}
           "https://shop.example/collections/shoes"
           {| opt_retries := Some 5; opt_timeout := None;
              opt_waitUntil := None |} 3 "200").
  - cbn. lia.
  - intros i Hi. destruct i as [|[|[|i]]]; [lia | by eexists | by eexists | lia].
  - reflexivity.
Defined.

(** ** The order of binary64 numbers *)

Ltac cmp_cases :=
  repeat match goal with
  | H : context [Z.compare ?x ?y] |- _ => destruct (Z.compare_spec x y)
  | |- context [Z.compare ?x ?y] => destruct (Z.compare_spec x y)
  | H : context [PosDef.Pos.compare_cont Eq ?x ?y] |- _ =>
      change (PosDef.Pos.compare_cont Eq x y) with (Pos.compare x y) in *;
      destruct (Pos.compare_spec x y)
  | |- context [PosDef.Pos.compare_cont Eq ?x ?y] =>
      change (PosDef.Pos.compare_cont Eq x y) with (Pos.compare x y) in *;
      destruct (Pos.compare_spec x y)
  end.

Ltac sf_cases a b c :=
  destruct a as [[]|[]| |[] ? ?], b as [[]|[]| |[] ? ?],
    c as [[]|[]| |[] ? ?];
  cbn [SFcompare]; try discriminate; try reflexivity;
  intros; cmp_cases; subst; cbn in *;
  try discriminate; try reflexivity; try lia.

Lemma SFcompare_antisym a b :
  SFcompare b a = CompOpp <$> SFcompare a b.
Proof.
  destruct a as [[]|[]| |[] ? ?], b as [[]|[]| |[] ? ?]; try reflexivity;
    cbn [SFcompare fmap option_fmap option_map];
    cmp_cases; subst; cbn; try reflexivity; try lia.
Qed.

Lemma SFcompare_lt_trans a b c :
  SFcompare a b = Some Lt -> SFcompare b c = Some Lt ->
  SFcompare a c = Some Lt.
Proof. sf_cases a b c. Qed.

Lemma SFcompare_eq_lt_trans a b c :
  SFcompare a b = Some Eq -> SFcompare b c = Some Lt ->
  SFcompare a c = Some Lt.
Proof. sf_cases a b c. Qed.

Lemma SFcompare_lt_eq_trans a b c :
  SFcompare a b = Some Lt -> SFcompare b c = Some Eq ->
  SFcompare a c = Some Lt.
Proof. sf_cases a b c. Qed.

Lemma SFcompare_eq_trans a b c :
  SFcompare a b = Some Eq -> SFcompare b c = Some Eq ->
  SFcompare a c = Some Eq.
Proof. sf_cases a b c. Qed.

Lemma SFcompare_None a b :
  SFcompare a b = None <-> a = S754_nan \/ b = S754_nan.
Proof.
  destruct a as [[]|[]| |[] ? ?], b as [[]|[]| |[] ? ?];
    cbn [SFcompare]; split; try done; try (by intros [?|?]);
    try (by left); try (by right).
Qed.

Lemma is_nan_Prim2SF x :
  PrimFloat.is_nan x = false <-> Prim2SF x <> S754_nan.
Proof.
  unfold PrimFloat.is_nan. rewrite FloatAxioms.eqb_spec. unfold SFeqb.
  destruct (SFcompare (Prim2SF x) (Prim2SF x)) as [[]|] eqn:Hc.
  - split; [|done]. intros _ Hn. rewrite Hn in Hc. discriminate.
  - exfalso. revert Hc. destruct (Prim2SF x) as [[]|[]| |[] ? ?];
      cbn [SFcompare]; try discriminate; intros; cmp_cases; subst;
      cbn in *; try discriminate; lia.
  - exfalso. revert Hc. destruct (Prim2SF x) as [[]|[]| |[] ? ?];
      cbn [SFcompare]; try discriminate; intros; cmp_cases; subst;
      cbn in *; try discriminate; lia.
  - split; [done|]. intros Hn. exfalso. apply Hn.
    apply SFcompare_None in Hc. by destruct Hc.
Qed.

Lemma ltb_Some x y :
  (x <? y)%float = true <-> SFcompare (Prim2SF x) (Prim2SF y) = Some Lt.
Proof.
  rewrite FloatAxioms.ltb_spec. unfold SFltb.
  by destruct (SFcompare _ _) as [[]|].
Qed.

Lemma leb_Some x y :
  (x <=? y)%float = true <->
  SFcompare (Prim2SF x) (Prim2SF y) = Some Lt \/
  SFcompare (Prim2SF x) (Prim2SF y) = Some Eq.
Proof.
  rewrite FloatAxioms.leb_spec. unfold SFleb.
  destruct (SFcompare _ _) as [[]|]; split; try done; try (by intros [?|?]);
    try (by left); by right.
Qed.

Lemma float_leb_ltb_trans x y z :
  (x <=? y)%float = true -> (y <? z)%float = true -> (x <? z)%float = true.
Proof.
  rewrite leb_Some, !ltb_Some. intros [H|H] Hyz.
  - by eapply SFcompare_lt_trans.
  - by eapply SFcompare_eq_lt_trans.
Qed.

Lemma float_ltb_leb_trans x y z :
  (x <? y)%float = true -> (y <=? z)%float = true -> (x <? z)%float = true.
Proof.
  rewrite leb_Some, !ltb_Some. intros Hxy [H|H].
  - by eapply SFcompare_lt_trans.
  - by eapply SFcompare_lt_eq_trans.
Qed.

Lemma float_leb_trans x y z :
  (x <=? y)%float = true -> (y <=? z)%float = true -> (x <=? z)%float = true.
Proof.
  rewrite !leb_Some. intros [H1|H1] [H2|H2].
  - left. by eapply SFcompare_lt_trans.
  - left. by eapply SFcompare_lt_eq_trans.
  - left. by eapply SFcompare_eq_lt_trans.
  - right. by eapply SFcompare_eq_trans.
Qed.

(** [y <= x] excludes [x < y]. *)
Lemma float_leb_not_ltb x y :
  (y <=? x)%float = true -> (x <? y)%float = false.
Proof.
  rewrite leb_Some. intros H. apply not_true_is_false. rewrite ltb_Some.
  rewrite (SFcompare_antisym (Prim2SF y) (Prim2SF x)).
  by destruct H as [-> | ->].
Qed.

(** Two numbers other than [NaN] are comparable. *)
Lemma float_not_ltb_leb x y :
  PrimFloat.is_nan x = false -> PrimFloat.is_nan y = false ->
  (x <? y)%float = false -> (y <=? x)%float = true.
Proof.
  rewrite !is_nan_Prim2SF. intros Hx Hy H.
  apply not_true_iff_false in H. rewrite ltb_Some in H. rewrite leb_Some.
  rewrite (SFcompare_antisym (Prim2SF x) (Prim2SF y)).
  destruct (SFcompare (Prim2SF x) (Prim2SF y)) as [[]|] eqn:Hc;
    [by right | done | by left |].
  apply SFcompare_None in Hc. by destruct Hc.
Qed.

Lemma float_leb_not_nan x y :
  (x <=? y)%float = true ->
  PrimFloat.is_nan x = false /\ PrimFloat.is_nan y = false.
Proof.
  rewrite leb_Some, !is_nan_Prim2SF. intros H.
  split; intros Hn; rewrite Hn in H;
    destruct H as [H|H]; revert H;
    destruct (Prim2SF x), (Prim2SF y); discriminate.
Qed.

Lemma float_ltb_leb x y : (x <? y)%float = true -> (x <=? y)%float = true.
Proof. rewrite ltb_Some, leb_Some. by left. Qed.

Lemma float_leb_infinity x :
  PrimFloat.is_nan x = false -> (x <=? infinity)%float = true.
Proof.
  rewrite is_nan_Prim2SF, leb_Some. intros Hx.
  change (Prim2SF infinity) with (S754_infinity false).
  destruct (Prim2SF x) as [[]|[]| |[] ? ?]; cbn [SFcompare];
    try (by left); try (by right).
Qed.

Lemma float_ltb_not_leb x y :
  (x <? y)%float = true -> (y <=? x)%float = false.
Proof.
  rewrite ltb_Some. intros H. apply not_true_is_false. rewrite leb_Some.
  rewrite (SFcompare_antisym (Prim2SF x) (Prim2SF y)), H.
  by intros [?|?].
Qed.

Lemma float_not_leb_ltb x y :
  PrimFloat.is_nan x = false -> PrimFloat.is_nan y = false ->
  (y <=? x)%float = false -> (x <? y)%float = true.
Proof.
  intros Hx Hy H. destruct (x <? y)%float eqn:Hlt; [done|].
  rewrite (float_not_ltb_leb x y Hx Hy Hlt) in H. done.
Qed.

(** Comparisons of a number with a constant, from comparisons of the same
    number with other constants. *)
Ltac float_bound :=
  match goal with
  | H : (?x <? ?c)%float = true |- (?x <? ?c)%float = true => exact H
  | H : (?c <=? ?x)%float = true |- (?c <=? ?x)%float = true => exact H
  | H : (?x <? ?c)%float = true |- (?x <? ?d)%float = true =>
      apply (float_ltb_leb_trans x c d H); vm_compute; reflexivity
  | H : (?x <=? ?c)%float = true |- (?x <? ?d)%float = true =>
      apply (float_leb_ltb_trans x c d H); vm_compute; reflexivity
  | H : (?c <? ?x)%float = true |- (?d <? ?x)%float = true =>
      apply (float_leb_ltb_trans d c x); [vm_compute; reflexivity | exact H]
  | H : (?c <=? ?x)%float = true |- (?d <=? ?x)%float = true =>
      apply (float_leb_trans d c x); [vm_compute; reflexivity | exact H]
  | H : (?c <? ?x)%float = true |- (?d <=? ?x)%float = true =>
      apply float_ltb_leb;
      apply (float_leb_ltb_trans d c x); [vm_compute; reflexivity | exact H]
  | |- (?x <? ?d)%float = false =>
      apply float_leb_not_ltb; float_bound
  | |- (?d <=? ?x)%float = false =>
      apply float_ltb_not_leb; float_bound
  end.

(** ** Price ranges *)

(** X10: a price that [generatePriceRangeData] files under a range and
    that is not zero is counted by [generateStats], and under the same
    range. *)
#[warnings="-inexact-float"]
Theorem price_ranges_agree (x : float) (name : range_name) :
  priceRangeOf (VNum x) = Some name ->
  num_truthy x = true ->
  ToBoolean (VNum x) && negb (isNaN (VNum x)) = true /\
  statsRange x = name.
Proof.
  unfold priceRangeOf, isNaN. cbn [ToNumber ToBoolean].
  destruct (PrimFloat.is_nan x) eqn:Hnan; [done|].
  intros Hfind Htruthy. split; [by rewrite Htruthy|].
  unfold priceRanges in Hfind. cbn [findRange] in Hfind.
  unfold in_range in Hfind. cbn [range_min range_max range_key] in Hfind.
  unfold statsRange.
  repeat match type of Hfind with
  | (if ?a && ?b then _ else _) = _ =>
      destruct a eqn:?; cbn [andb] in Hfind;
      [destruct b eqn:?; [injection Hfind as <-|]|]
  end; try discriminate.
  all: repeat match goal with
  | |- (if (?y <? ?c)%float then _ else _) = _ =>
      first
        [ replace (y <? c)%float with true by (symmetry; float_bound)
        | replace (y <? c)%float with false by (symmetry; float_bound) ]
  end; reflexivity.
Qed.

Lemma price_ranges_agree_witness :
  ToBoolean (VNum 25) && negb (isNaN (VNum 25)) = true /\
  statsRange 25 = From20To50.
Proof.
  apply (price_ranges_agree 25 From20To50); vm_compute; reflexivity.
Defined.

(** X11: [generatePriceRangeData] leaves a numeric price out of every
    range exactly when it is [NaN], negative, or falls strictly between
    the upper bound of one range and the lower bound of the next
    (9.99 to 10, 19.99 to 20, 49.99 to 50, 99.99 to 100). *)
#[warnings="-inexact-float"]
Theorem priceRangeOf_None_iff (x : float) :
  priceRangeOf (VNum x) = None <->
  PrimFloat.is_nan x = true \/
  (x <? 0)%float = true \/
  (9.99 <? x)%float && (x <? 10)%float = true \/
  (19.99 <? x)%float && (x <? 20)%float = true \/
  (49.99 <? x)%float && (x <? 50)%float = true \/
  (99.99 <? x)%float && (x <? 100)%float = true.
Proof.
  unfold priceRangeOf, isNaN. cbn [ToNumber].
  destruct (PrimFloat.is_nan x) eqn:Hnan; [split; [by left | done]|].
  unfold priceRanges. cbn [findRange]. unfold in_range.
  cbn [range_min range_max range_key].
  rewrite (float_leb_infinity x Hnan), andb_true_r.
  split.
  - intros Hfind. right.
    repeat match type of Hfind with
    | (if (?c <=? ?y)%float && (?y <=? ?d)%float then _ else _) = _ =>
        destruct (y <=? d)%float eqn:?;
        [destruct (c <=? y)%float eqn:?; [discriminate|] |];
        cbn [andb] in Hfind; rewrite ?andb_false_r in Hfind
    | (if (?c <=? ?y)%float then _ else _) = _ =>
        destruct (c <=? y)%float eqn:?; [discriminate|]
    end;
    repeat match goal with
    | H : (_ <=? _)%float = false |- _ =>
        apply float_not_leb_ltb in H; [|done..]
    end.
    all: repeat match goal with
    | H : (?c <? ?y)%float = true |- context [(?c <? ?y)%float] =>
        rewrite H
    end; cbn [andb]; auto 10.
  - intros [?|H]; [done|].
    assert (Hlt : forall c d, (c <? x)%float && (x <? d)%float = true ->
              (c <? x)%float = true /\ (x <? d)%float = true).
    { intros c d. apply andb_true_iff. }
    destruct H as [H|[H|[H|[H|H]]]]; try apply Hlt in H as [Hlo Hhi];
      repeat match goal with
      | |- (if (?c <=? ?y)%float && (?y <=? ?d)%float then _ else _) = _ =>
          replace ((c <=? y)%float && (y <=? d)%float) with false
            by (symmetry; apply andb_false_iff;
                first [left; float_bound | right; float_bound])
      | |- (if (?c <=? ?y)%float then _ else _) = _ =>
          replace (c <=? y)%float with false by (symmetry; float_bound)
      end; reflexivity.
Qed.

Lemma priceRanges_rangesWith : priceRanges = rangesWith [] [] [] [] [].
Proof. reflexivity. Qed.

Lemma findRange_rangesWith l1 l2 l3 l4 l5 x :
  findRange (rangesWith l1 l2 l3 l4 l5) x = findRange priceRanges x.
Proof. reflexivity. Qed.

(** One entry goes to the list of the range the price is found in. *)
Lemma pushInRange_rangesWith l1 l2 l3 l4 l5 x e :
  pushInRange (rangesWith l1 l2 l3 l4 l5) x e =
  let add name :=
    match findRange priceRanges x with
    | Some n => if range_eqb n name then [e] else []
    | None => []
    end in
  rangesWith (l1 ++ add Under10) (l2 ++ add From10To20)
    (l3 ++ add From20To50) (l4 ++ add From50To100) (l5 ++ add Over100).
Proof.
  unfold rangesWith, priceRanges. cbn [pushInRange findRange].
  unfold in_range. cbn [range_min range_max range_key range_products].
  repeat match goal with
  | |- context [if ?a && ?b then _ else _] =>
      destruct (a && b) eqn:?
  end; cbn [range_eqb]; by rewrite ?app_nil_r.
Qed.

Lemma priceRangeStep_rangesWith l1 l2 l3 l4 l5 p :
  priceRangeStep (rangesWith l1 l2 l3 l4 l5) p =
  rangesWith (l1 ++ entriesOf (filedUnder Under10 p))
    (l2 ++ entriesOf (filedUnder From10To20 p))
    (l3 ++ entriesOf (filedUnder From20To50 p))
    (l4 ++ entriesOf (filedUnder From50To100 p))
    (l5 ++ entriesOf (filedUnder Over100 p)).
Proof.
  unfold priceRangeStep, filedUnder, priceRangeOf.
  assert (Hskip : rangesWith l1 l2 l3 l4 l5 =
    rangesWith (l1 ++ []) (l2 ++ []) (l3 ++ []) (l4 ++ []) (l5 ++ []))
    by (by rewrite !app_nil_r).
  destruct (c_price p) as [| |x] eqn:Hp; [|done|].
  - destruct (isNaN VUndefined); [done|]. rewrite pushInRange_rangesWith.
    cbn zeta. by destruct (findRange priceRanges _) as [[]|].
  - destruct (isNaN (VNum x)); [done|]. rewrite pushInRange_rangesWith.
    cbn zeta. by destruct (findRange priceRanges _) as [[]|].
Qed.

Lemma generatePriceRangeData_from l1 l2 l3 l4 l5 ps :
  foldl priceRangeStep (rangesWith l1 l2 l3 l4 l5) ps =
  rangesWith (l1 ++ omap (filedUnder Under10) ps)
    (l2 ++ omap (filedUnder From10To20) ps)
    (l3 ++ omap (filedUnder From20To50) ps)
    (l4 ++ omap (filedUnder From50To100) ps)
    (l5 ++ omap (filedUnder Over100) ps).
Proof.
  revert l1 l2 l3 l4 l5. induction ps as [|p ps IH]; intros l1 l2 l3 l4 l5.
  - cbn [foldl omap list_omap]. by rewrite !app_nil_r.
  - cbn [foldl]. rewrite priceRangeStep_rangesWith, IH.
    f_equal; rewrite <- app_assoc; f_equal; cbn [omap list_omap];
      by destruct (filedUnder _ p).
Qed.

Lemma productsOf_generated products name :
  productsOf name (generatePriceRangeData products) =
  omap (filedUnder name) products.
Proof.
  unfold generatePriceRangeData.
  rewrite priceRanges_rangesWith, generatePriceRangeData_from.
  by destruct name.
Qed.

(** X12: in the object [generatePriceRangeData] writes, the list of a
    range holds, in the order of the input, the entries of exactly the
    products whose price is found in that range and in no earlier one; so
    every product is filed at most once. *)
Theorem generatePriceRangeData_products
    (products : list crawled) (name : range_name) :
  productsOf name (generatePriceRangeData products) =
  omap (filedUnder name) products.
Proof.
  unfold generatePriceRangeData.
  rewrite priceRanges_rangesWith, generatePriceRangeData_from.
  by destruct name.
Qed.

(** The counter of a range after the loop of [generateStats]. *)
Lemma statsPrices_count ps st name :
  (foldl statsPriceStep st ps).2 name =
  st.2 name + length (filter (fun p => countedUnder name p = true) ps).
Proof.
  revert st. induction ps as [|p ps IH]; intros st; cbn [foldl].
  - rewrite filter_nil. cbn [length]. lia.
  - rewrite IH, filter_cons.
    assert (Hstep : (statsPriceStep st p).2 name =
      st.2 name + if countedUnder name p then 1 else 0).
    { unfold statsPriceStep, countedUnder. cbn zeta.
      destruct (ToBoolean (c_price p) && negb (isNaN (c_price p)));
        cbn [andb snd]; [|lia].
      destruct (range_eqb name _); lia. }
    rewrite Hstep. destruct (decide (countedUnder name p = true)) as [Hc|Hc].
    + rewrite Hc. cbn [length]. lia.
    + apply not_true_is_false in Hc. rewrite Hc. lia.
Qed.

Lemma statsPrices_valid ps st :
  length (foldl statsPriceStep st ps).1 =
  length st.1 +
  length (filter (fun p =>
    ToBoolean (c_price p) && negb (isNaN (c_price p)) = true) ps).
Proof.
  revert st. induction ps as [|p ps IH]; intros st; cbn [foldl].
  - rewrite filter_nil. cbn [length]. lia.
  - rewrite IH. unfold statsPriceStep. cbn zeta. rewrite filter_cons.
    destruct (ToBoolean (c_price p) && negb (isNaN (c_price p))) eqn:Hvalid.
    + rewrite decide_True by done. cbn [fst length].
      rewrite length_app. cbn [length]. lia.
    + rewrite decide_False by (by intros ?). lia.
Qed.

(** X13: when the loop of [generateStats] ends, the five range counters
    add up to the number of prices in [validPrices]: every valid price is
    counted under exactly one range. *)
Theorem statsPrices_counters_sum (products : list crawled) :
  (statsPrices products).2 Under10 + (statsPrices products).2 From10To20 +
  (statsPrices products).2 From20To50 + (statsPrices products).2 From50To100 +
  (statsPrices products).2 Over100 =
  length (statsPrices products).1.
Proof.
  unfold statsPrices. rewrite statsPrices_valid, !statsPrices_count.
  cbn [fst snd length]. induction products as [|p ps IH]; [done|].
  rewrite !filter_cons.
  assert (Hone :
    (if countedUnder Under10 p then 1 else 0) +
    (if countedUnder From10To20 p then 1 else 0) +
    (if countedUnder From20To50 p then 1 else 0) +
    (if countedUnder From50To100 p then 1 else 0) +
    (if countedUnder Over100 p then 1 else 0) =
    if ToBoolean (c_price p) && negb (isNaN (c_price p)) then 1 else 0).
  { unfold countedUnder.
    destruct (ToBoolean (c_price p) && negb (isNaN (c_price p)));
      cbn [andb]; [|done].
    by destruct (statsRange (ToNumber (c_price p))). }
  repeat match goal with
  | |- context [decide (?b = true)] =>
      let H := fresh in
      destruct (decide (b = true)) as [H|H];
      [rewrite H in Hone | apply not_true_is_false in H; rewrite H in Hone]
  end; cbn [length]; lia.
Qed.

Lemma filedUnder_counted name p e :
  filedUnder name p = Some e ->
  ToBoolean (c_price p) = true ->
  countedUnder name p = true.
Proof.
  unfold filedUnder, countedUnder.
  destruct (priceRangeOf (c_price p)) as [n|] eqn:Hn; [|done].
  destruct (range_eqb n name) eqn:Hr; [|done]. intros _ Htruthy.
  destruct (c_price p) as [| |x]; [done..|].
  assert (Hsame : n = name) by (by destruct n, name).
  subst n. cbn [ToBoolean] in Htruthy.
  replace (statsRange (ToNumber (VNum x))) with name.
  - unfold priceRangeOf in Hn. destruct (isNaN (VNum x)); [done|].
    cbn [ToBoolean]. rewrite Htruthy. by destruct name.
  - symmetry. cbn [ToNumber].
    revert Hn Htruthy. clear. intros Hn Htruthy.
    unfold priceRangeOf, isNaN in Hn. cbn [ToNumber] in Hn.
    destruct (PrimFloat.is_nan x) eqn:Hnan; [done|].
    unfold priceRanges in Hn. cbn [findRange] in Hn.
    unfold in_range in Hn. cbn [range_min range_max range_key] in Hn.
    unfold statsRange.
    repeat match type of Hn with
    | (if ?a && ?b then _ else _) = _ =>
        destruct a eqn:?; cbn [andb] in Hn;
        [destruct b eqn:?; [injection Hn as <-|]|]
    end; try discriminate.
    all: repeat match goal with
    | |- (if (?y <? ?c)%float then _ else _) = _ =>
        first
          [ replace (y <? c)%float with true by (symmetry; float_bound)
          | replace (y <? c)%float with false by (symmetry; float_bound) ]
    end; reflexivity.
Qed.

(** X14: when no product has the price [0], a range of the object
    [generatePriceRangeData] writes never holds more products than
    [generateStats] counts for that range. *)
Theorem price_ranges_within_stats
    (products : list crawled) (name : range_name) :
  Forall (fun p =>
    priceRangeOf (c_price p) = None \/ ToBoolean (c_price p) = true)
    products ->
  length (productsOf name (generatePriceRangeData products)) <=
  (statsPrices products).2 name.
Proof.
  intros Hall. rewrite productsOf_generated.
  unfold statsPrices. rewrite statsPrices_count. cbn [snd].
  induction Hall as [|p ps Hp _ IH]; [done|].
  cbn [omap list_omap]. rewrite filter_cons.
  destruct (filedUnder name p) as [e|] eqn:He.
  - destruct Hp as [Hnone|Htruthy].
    { unfold filedUnder in He. by rewrite Hnone in He. }
    rewrite decide_True by (by eapply filedUnder_counted).
    cbn [length]. lia.
  - destruct (decide _); cbn [length]; lia.
Qed.

Lemma price_ranges_within_stats_witness :
  length
    (productsOf From20To50
       (generatePriceRangeData
          [ {| c_handle := Some "a"; c_title := None; c_price := VNum 25;
               c_url := None; c_images := None |};
            {| c_handle := Some "b"; c_title := None; c_price := VNull;
               c_url := None; c_images := None |} ])) <=
  (statsPrices
     [ {| c_handle := Some "a"; c_title := None; c_price := VNum 25;
          c_url := None; c_images := None |};
       {| c_handle := Some "b"; c_title := None; c_price := VNull;
          c_url := None; c_images := None |} ]).2 From20To50.
Proof.
  apply (price_ranges_within_stats
           [ {| c_handle := Some "a"; c_title := None; c_price := VNum 25;
                c_url := None; c_images := None |};
             {| c_handle := Some "b"; c_title := None; c_price := VNull;
                c_url := None; c_images := None |} ] From20To50).
  constructor; [right; vm_compute; reflexivity|].
  constructor; [left; reflexivity|]. constructor.
Defined.

(** ** [parseMoney] *)

Lemma filter_chars_append f a b :
  filter_chars f (a +:+ b) = filter_chars f a +:+ filter_chars f b.
Proof.
  induction a as [|c a IH]; [done|]. rewrite append_cons.
  cbn [filter_chars]. destruct (f c); [|done]. by rewrite append_cons, IH.
Qed.

Lemma filter_chars_twice f g s :
  filter_chars f (filter_chars g s) = filter_chars (fun c => g c && f c) s.
Proof.
  induction s as [|c s IH]; [done|]. cbn [filter_chars].
  destruct (g c); cbn [andb filter_chars]; [|done].
  destruct (f c); by rewrite IH.
Qed.

Lemma filter_chars_ext f g s :
  (forall c, f c = g c) -> filter_chars f s = filter_chars g s.
Proof.
  intros H. induction s as [|c s IH]; [done|]. cbn [filter_chars].
  by rewrite H, IH.
Qed.

Lemma all_chars_filter f s : all_chars f (filter_chars f s) = true.
Proof.
  induction s as [|c s IH]; [done|]. cbn [filter_chars].
  destruct (f c) eqn:Hc; [|done]. cbn [all_chars]. by rewrite Hc.
Qed.

(** The digits of a string survive [decimal_comma]. *)
Lemma decimal_comma_digits s :
  filter_chars is_digit (decimal_comma s) = filter_chars is_digit s.
Proof.
  induction s as [|c s IH]; [done|]. cbn [decimal_comma].
  destruct (Ascii.eqb_spec c ",") as [->|Hc]; cbn [andb].
  - destruct (two_digits s); [done|]. cbn [filter_chars]. by rewrite IH.
  - cbn [filter_chars]. by rewrite IH.
Qed.

(** After [decimal_comma], what is not a comma is what was a digit or a
    dot before, plus the dot that replaced a comma. *)
Lemma decimal_comma_chars s :
  all_chars is_money_char s = true ->
  all_chars is_money_char (decimal_comma s) = true.
Proof.
  induction s as [|c s IH]; [done|]. cbn [all_chars decimal_comma].
  intros [Hc Hs]%andb_true_iff.
  destruct (Ascii.eqb c "," && two_digits s).
  - cbn [all_chars]. by rewrite Hs.
  - cbn [all_chars]. by rewrite Hc, IH.
Qed.

Lemma all_chars_filter_weaken f g s :
  all_chars g s = true -> all_chars (fun c => g c && f c) (filter_chars f s) = true.
Proof.
  induction s as [|c s IH]; [done|]. cbn [all_chars filter_chars].
  intros [Hc Hs]%andb_true_iff. destruct (f c) eqn:Hf; [|by apply IH].
  cbn [all_chars]. by rewrite Hc, Hf, IH.
Qed.

Lemma all_chars_impl (f g : ascii -> bool) s :
  (forall c, f c = true -> g c = true) ->
  all_chars f s = true -> all_chars g s = true.
Proof.
  intros H. induction s as [|c s IH]; [done|]. cbn [all_chars].
  intros [Hc Hs]%andb_true_iff. by rewrite (H _ Hc), IH.
Qed.

(** X15: the text [parseMoney] hands to [parseFloat] holds digits and
    dots only: currency signs, spaces, letters, minus signs and commas
    are gone. *)
Theorem cleanMoney_chars (moneyString : string) :
  all_chars (fun c => is_digit c || Ascii.eqb c ".") (cleanMoney moneyString)
    = true.
Proof.
  unfold cleanMoney.
  eapply all_chars_impl;
    [|apply (all_chars_filter_weaken (fun c => negb (Ascii.eqb c ","))
               is_money_char); apply decimal_comma_chars, all_chars_filter].
  intros c. unfold is_money_char.
  destruct (is_digit c), (Ascii.eqb c ","), (Ascii.eqb c "."); done.
Qed.

(** X16: [parseMoney] neither drops nor reorders a digit: the digits of
    the text it hands to [parseFloat] are the digits of its argument. *)
Theorem cleanMoney_digits (moneyString : string) :
  filter_chars is_digit (cleanMoney moneyString) =
  filter_chars is_digit moneyString.
Proof.
  unfold cleanMoney. rewrite filter_chars_twice.
  rewrite (filter_chars_ext _ is_digit).
  - rewrite decimal_comma_digits, filter_chars_twice.
    apply filter_chars_ext. intros c. unfold is_money_char.
    destruct (is_digit c); [done|]. by rewrite andb_false_r.
  - intros c. destruct (Ascii.eqb_spec c ",") as [->|]; [done|].
    cbn [negb andb]. done.
Qed.

Lemma two_digits_append x a b :
  two_digits (x +:+ String "," (String a (String b ""))) = false.
Proof. by destruct x as [|c1 [|c2 [|c3 x]]]. Qed.

Lemma decimal_comma_end x a b :
  is_digit a = true -> is_digit b = true ->
  decimal_comma (x +:+ String "," (String a (String b ""))) =
  x +:+ String "." (String a (String b "")).
Proof.
  intros Ha Hb. induction x as [|c x IH].
  - change ("" +:+ ?s) with s. cbn [decimal_comma two_digits].
    by rewrite Ha, Hb.
  - rewrite !append_cons. cbn [decimal_comma].
    by rewrite two_digits_append, andb_false_r, IH.
Qed.

(** X17: a price text that ends with a comma and two digits is read with
    a decimal comma: the comma becomes the decimal point and, before it,
    only digits and dots are kept. *)
Theorem cleanMoney_decimal_comma (d : string) (a b : ascii) :
  is_digit a = true ->
  is_digit b = true ->
  cleanMoney (d +:+ String "," (String a (String b ""))) =
  filter_chars (fun c => is_digit c || Ascii.eqb c ".") d +:+
  String "." (String a (String b "")).
Proof.
  intros Ha Hb. unfold cleanMoney.
  rewrite filter_chars_append.
  assert (Htail : filter_chars is_money_char
            (String "," (String a (String b ""))) =
          String "," (String a (String b ""))).
  { cbn [filter_chars]. unfold is_money_char at 1. cbn.
    unfold is_money_char. by rewrite Ha, Hb. }
  rewrite Htail, (decimal_comma_end _ a b Ha Hb), filter_chars_append.
  f_equal.
  - rewrite filter_chars_twice. apply filter_chars_ext. intros c.
    unfold is_money_char.
    destruct (is_digit c) eqn:Hd, (Ascii.eqb_spec c ",") as [->|];
      cbn; try done. by destruct (Ascii.eqb c ".").
  - cbn [filter_chars].
    assert (Hne : forall c, is_digit c = true -> Ascii.eqb c "," = false).
    { intros c Hc. destruct (Ascii.eqb_spec c ",") as [->|]; done. }
    by rewrite (Hne a Ha), (Hne b Hb).
Qed.

Lemma cleanMoney_decimal_comma_witness :
  cleanMoney ("EUR 1.234" +:+ String "," (String "5" (String "6" ""))) =
  filter_chars (fun c => is_digit c || Ascii.eqb c ".") "EUR 1.234" +:+
  String "." (String "5" (String "6" "")).
Proof.
  apply (cleanMoney_decimal_comma "EUR 1.234" "5" "6"); reflexivity.
Defined.

(** ** The product handle *)

Lemma startsWith_strip s p :
  startsWith s p = bool_decide (is_Some (strip_prefix p s)).
Proof.
  revert s. induction p as [|c p IH]; intros s.
  - rewrite startsWith_nil. symmetry. by apply bool_decide_eq_true.
  - destruct s as [|d s]; cbn [startsWith strip_prefix].
    + symmetry. apply bool_decide_eq_false. by intros [? ?].
    + destruct (Ascii.eqb c d); cbn [andb]; [apply IH|].
      symmetry. apply bool_decide_eq_false. by intros [? ?].
Qed.

Lemma startsWith_append_l x y p :
  startsWith x p = true -> startsWith (x +:+ y) p = true.
Proof.
  revert x. induction p as [|c p IH]; intros x; [by rewrite !startsWith_nil|].
  destruct x as [|d x]; [done|]. rewrite append_cons. cbn [startsWith].
  intros [-> H]%andb_true_iff. by rewrite (IH _ H).
Qed.

Lemma includes_cons c s p :
  includes (String c s) p = startsWith (String c s) p || includes s p.
Proof. reflexivity. Qed.

Lemma includes_append_l x y p :
  includes x p = true -> includes (x +:+ y) p = true.
Proof.
  induction x as [|c x IH].
  - cbn [includes]. rewrite orb_false_r. intros H.
    destruct p; [|done]. destruct y; by cbn [includes startsWith].
  - rewrite append_cons, !includes_cons.
    intros [H|H]%orb_true_iff; apply orb_true_iff.
    + left. by apply (startsWith_append_l (String c x)).
    + right. by apply IH.
Qed.

Lemma after_first_None sep s :
  after_first sep s = None <-> includes s sep = false.
Proof.
  induction s as [|c s IH].
  - cbn [after_first includes]. rewrite orb_false_r, startsWith_strip.
    destruct (strip_prefix sep "") eqn:H.
    + split; [done|]. intros Hb. apply bool_decide_eq_false in Hb.
      destruct Hb. by eexists.
    + split; [|done]. intros _. apply bool_decide_eq_false. by intros [? ?].
  - cbn [after_first]. rewrite includes_cons, startsWith_strip.
    destruct (strip_prefix sep (String c s)) eqn:H.
    + split; [done|]. intros [Hb _]%orb_false_iff.
      apply bool_decide_eq_false in Hb. destruct Hb. by eexists.
    + rewrite IH. split.
      * intros ->. rewrite orb_false_r. apply bool_decide_eq_false.
        by intros [? ?].
      * by intros [_ ?]%orb_false_iff.
Qed.

Lemma after_first_split sep s r :
  after_first sep s = Some r -> s = before_first sep s +:+ sep +:+ r.
Proof.
  induction s as [|c s IH]; cbn [after_first before_first].
  - destruct (strip_prefix sep "") eqn:H; [|done].
    intros [= ->]. by apply strip_prefix_Some in H.
  - destruct (strip_prefix sep (String c s)) eqn:H.
    + intros [= ->]. by apply strip_prefix_Some in H.
    + intros Hr. rewrite append_cons. f_equal. by apply IH.
Qed.

Lemma before_first_split sep s :
  exists rest,
    s = before_first sep s +:+ rest /\
    (rest = "" \/ startsWith rest sep = true).
Proof.
  induction s as [|c s (rest & Hs & Hrest)]; cbn [before_first].
  - destruct (strip_prefix sep "") eqn:H.
    + exists "". split; [done | by left].
    + exists "". split; [done | by left].
  - destruct (strip_prefix sep (String c s)) eqn:H.
    + exists (String c s). split; [done|]. right.
      rewrite startsWith_strip, H. by apply bool_decide_eq_true.
    + exists rest. split; [|done]. rewrite append_cons. by f_equal.
Qed.

Lemma before_first_free c sep s :
  includes (before_first (String c sep) s) (String c sep) = false.
Proof.
  induction s as [|d s IH]; cbn [before_first].
  - done.
  - destruct (strip_prefix (String c sep) (String d s)) eqn:H; [done|].
    rewrite includes_cons, IH, orb_false_r.
    destruct (startsWith (String d (before_first (String c sep) s))
                (String c sep)) eqn:Hsw; [|done].
    destruct (before_first_split (String c sep) s) as (rest & Hs & _).
    apply (startsWith_append_l _ rest) in Hsw.
    rewrite append_cons, <- Hs, startsWith_strip, H in Hsw.
    apply bool_decide_eq_true in Hsw. by destruct Hsw.
Qed.

(** X18: a URL has a product handle exactly when it contains
    [/products/]. *)
Theorem productHandle_None_iff (productUrl : string) :
  productHandle productUrl = None <->
  includes productUrl "/products/" = false.
Proof.
  unfold productHandle, split_1. rewrite <- after_first_None.
  destruct (after_first "/products/" productUrl); by split.
Qed.

(** X19: the product handle sits in the URL right after the first
    [/products/]; it contains neither a question mark nor [/products/],
    and it ends where the URL ends or where a question mark or the next
    [/products/] begins. *)
Theorem productHandle_sound (productUrl h : string) :
  productHandle productUrl = Some h ->
  exists pre rest,
    productUrl = pre +:+ "/products/" +:+ h +:+ rest /\
    includes pre "/products/" = false /\
    includes h "?" = false /\
    includes h "/products/" = false /\
    (rest = "" \/ startsWith rest "?" = true \/
     startsWith rest "/products/" = true).
Proof.
  unfold productHandle, split_1.
  destruct (after_first "/products/" productUrl) as [r|] eqn:Hr; [|done].
  intros [= <-]. apply after_first_split in Hr.
  destruct (before_first_split "/products/" r) as (rest1 & Hr1 & Hrest1).
  destruct (before_first_split "?" (before_first "/products/" r))
    as (rest2 & Hr2 & Hrest2).
  assert (Hfree : includes (before_first "?" (before_first "/products/" r))
                    "/products/" = false).
  { destruct (includes (before_first "?" (before_first "/products/" r))
                "/products/") eqn:Hin; [|done].
    apply (includes_append_l _ rest2) in Hin.
    by rewrite <- Hr2, before_first_free in Hin. }
  exists (before_first "/products/" productUrl), (rest2 +:+ rest1).
  split; [|split; [apply before_first_free|split;
    [apply before_first_free|split; [done|]]]].
  - rewrite <- (append_assoc_str _ rest2 rest1), <- Hr2, <- Hr1. exact Hr.
  - destruct Hrest2 as [->|H2].
    + change ("" +:+ rest1) with rest1. destruct Hrest1; auto.
    + right. left. by apply startsWith_append_l.
Qed.

Lemma productHandle_sound_witness :
  exists pre rest,
    "https://shop.example/products/red-shirt?variant=1" =
      pre +:+ "/products/" +:+ "red-shirt" +:+ rest /\
    includes pre "/products/" = false /\
    includes "red-shirt" "?" = false /\
    includes "red-shirt" "/products/" = false /\
    (rest = "" \/ startsWith rest "?" = true \/
     startsWith rest "/products/" = true).
Proof.
  apply (productHandle_sound
           "https://shop.example/products/red-shirt?variant=1" "red-shirt").
  vm_compute. reflexivity.
Defined.
